(** * CMF: collaborative matrix factorisation by variational inference

    A shallow embedding of [models/cmf.py].  The estimator keeps seven arrays
    (alpha, l, u, g, h, Eb, Elogb) and refines them with closed-form and
    gradient updates inside one loop that watches the evidence lower bound.

    Arrays are lists of rows.  The arithmetic of the entries is an interface
    ([Scalar]), so that every structural result holds for whatever the
    entries are; two instances are used: the real numbers, for explicit
    evaluations, and IEEE binary64, for the stopping test of the loop, which
    depends on how infinities divide, and for the signs of the beta update,
    which depend on underflow and on NaNs.

    Two things are left out.  A sum ([np.sum], [np.dot]) adds its terms from
    the left, in row-major order; numpy may group them otherwise, which
    changes roundings only.  And arrays are taken to have the shapes the
    estimator gives them: on other shapes numpy raises, where the
    elementwise operations below stop at the shorter argument; the results
    that depend on shapes say so ([well_shaped]).  Output ([print]) is not
    modelled. *)

From Stdlib Require Import String.
From Stdlib Require Import List Arith Lia Bool ZArith.
From Stdlib Require Import Reals Lra.
From Stdlib Require Floats.SpecFloat.
Import ListNotations.

Set Implicit Arguments.

(** ** Scalars *)

(** What numpy needs of an entry: the four operations, [np.exp] and
    [np.log], the constant zero that [np.sum] and [np.zeros] start from, and
    the conversion of a Python integer (a shape component) to an entry. *)
Class Scalar (F : Type) := {
  f0 : F;
  fadd : F -> F -> F;
  fsub : F -> F -> F;
  fmul : F -> F -> F;
  fdiv : F -> F -> F;
  fexp : F -> F;
  flog : F -> F;
  of_nat : nat -> F
}.

(** The functions taken from scipy: [special.psi], [special.gammaln] and
    [stats.norm.pdf x loc scale]. *)
Class Special (F : Type) := {
  psi : F -> F;
  gammaln : F -> F;
  norm_pdf : F -> F -> F -> F
}.

(** What the stopping test of the loop needs: [-np.inf], [abs] and [<]. *)
Class Ordered (F : Type) := {
  neg_inf : F;
  fabs : F -> F;
  fltb : F -> F -> bool
}.

(** ** The part of numpy the estimator uses *)

Section Numpy.
Context {F : Type} {SF : Scalar F}.

Local Abbreviation vec := (list F).
Local Abbreviation mat := (list (list F)).
Local Abbreviation ten := (list (list (list F))).

(** Elementwise combination of two arrays of one shape. *)
Fixpoint zipw {A B C : Type} (f : A -> B -> C) (xs : list A) (ys : list B)
  : list C :=
  match xs, ys with
  | x :: xs', y :: ys' => f x y :: zipw f xs' ys'
  | _, _ => []
  end.

Definition mzip (f : F -> F -> F) (A B : mat) : mat := zipw (zipw f) A B.

(** [np.sum] of a vector: the entries added from the left, from zero. *)
Definition fsum (xs : vec) : F := fold_left fadd xs f0.

(** [np.sum] of a matrix, all entries in row-major order. *)
Definition msum (A : mat) : F := fsum (concat A).

Definition nrow (A : mat) : nat := length A.
Definition ncol (A : mat) : nat := length (hd [] A).

(** [A[k, :]] and [A[:, j]]. *)
Definition row (k : nat) (A : mat) : vec := nth k A [].
Definition col (j : nat) (A : mat) : vec := map (fun r => nth j r f0) A.

(** [A.T] *)
Definition transpose (A : mat) : mat :=
  map (fun j => col j A) (seq 0 (ncol A)).

Definition vdot (a b : vec) : F := fsum (zipw fmul a b).

(** [np.dot] of two matrices, and of a matrix and a vector. *)
Definition dot (A B : mat) : mat :=
  map (fun a => map (fun j => vdot a (col j B)) (seq 0 (ncol B))) A.
Definition dotv (A : mat) (b : vec) : vec := map (fun a => vdot a b) A.

(** [np.outer] *)
Definition outer (a b : vec) : mat := map (fun x => map (fmul x) b) a.

Definition vexp (a : vec) : vec := map fexp a.
Definition mexp (A : mat) : mat := map vexp A.
Definition mlog (A : mat) : mat := map (map flog) A.

(** [a[np.newaxis, :] + A]: the vector is added to every row. *)
Definition add_rowvec (a : vec) (A : mat) : mat := map (zipw fadd a) A.

(** [a[:, np.newaxis] * A] and [A * b[np.newaxis, :]]: a vector spread
    over the columns, and over the rows. *)
Definition colvec_mul (a : vec) (A : mat) : mat :=
  zipw (fun x r => map (fmul x) r) a A.
Definition mul_rowvec (A : mat) (b : vec) : mat :=
  map (fun r => zipw fmul r b) A.

(** [c + A] and [c * a] for a scalar [c]. *)
Definition sadd (c : F) (A : mat) : mat := map (map (fadd c)) A.
Definition svadd (c : F) (a : vec) : vec := map (fadd c) a.
Definition svmul (c : F) (a : vec) : vec := map (fmul c) a.

(** [np.sum(A, axis=1)] and [np.sum(A, axis=0)]. *)
Definition sum_axis1 (A : mat) : vec := map fsum A.
Definition sum_axis0 (A : mat) : vec :=
  map (fun j => fsum (col j A)) (seq 0 (ncol A)).

(** [np.tile(a, (V, 1))] *)
Definition tile (a : vec) (V : nat) : mat := repeat a V.

(** [np.zeros((n, p))] *)
Definition zeros (n p : nat) : mat := repeat (repeat f0 p) n.

(** [A[k, :] = r] *)
Fixpoint set_row (k : nat) (r : vec) (A : mat) : mat :=
  match A, k with
  | [], _ => []
  | _ :: A', 0 => r :: A'
  | a :: A', S k' => a :: set_row k' r A'
  end.

(** [A[:, :, np.newaxis] * B] for [A] of shape (n, p) and [B] of shape
    (p, q): broadcasting gives the (n, p, q) array whose entry (i, j, t) is
    [A[i, j] * B[j, t]]. *)
Definition bmul3 (A B : mat) : ten :=
  map (fun a => zipw (fun x b => map (fmul x) b) a B) A.

(** [T - r] for [T] of shape (n, p, q) and [r] of shape (q,). *)
Definition tsubv (T : ten) (r : vec) : ten :=
  map (map (fun t => zipw fsub t r)) T.

(** [np.sum(T, axis=(0, 1))]: the (n, p, q) array is read as n*p vectors
    of length q, added entry by entry. *)
Definition sum_axis01 (T : ten) : vec := sum_axis0 (concat T).

End Numpy.

(** ** The estimator *)

(** The settings of the constructor that the updates read. *)
Record hyper (F : Type) := Hyper {
  K : nat;
  m : nat;
  num_steps : nat;
  step_size : F;
  max_iters : nat;
  tolerance : F;
  smoothness : F;
  c0 : F;
  sigma : F
}.

(** The arrays of a fitted instance. *)
Record params (F : Type) := Params {
  alpha : list F;
  l : list (list F);
  u : list (list F);
  g : list (list F);
  h : list (list F);
  Eb : list (list F);
  Elogb : list (list F)
}.

Section Model.
Context {F : Type} {SF : Scalar F} {SP : Special F}.

Definition _compute_expectations (a b : list (list F))
  : list (list F) * list (list F) :=
  let Ex := mzip fdiv a b in
  let Elogx := mzip fsub (map (map psi) a) (mlog b) in
  (Ex, Elogx).

(** [theta = self.alpha[np.newaxis, :] + np.dot(self.l, self.u.T)] *)
Definition theta_of (s : params F) : list (list F) :=
  add_rowvec (alpha s) (dot (l s) (transpose (u s))).

(** [_auxsum] on a (K, D) matrix, as the beta, l and bound code call it. *)
Definition _auxsum (s : params F) (theta : list (list F)) : list (list F) :=
  dot (mexp (Elogb s)) (mexp theta).

(** [_auxsum] on a vector of length K, as the u update calls it:
    [np.dot] of a matrix and a vector. *)
Definition _auxsum1 (s : params F) (theta_d : list F) : list F :=
  dotv (mexp (Elogb s)) (vexp theta_d).

Definition _update_beta (hp : hyper F) (X : list (list F)) (s : params F)
  : params F :=
  let V := nrow X in
  let theta := theta_of s in
  let xauxsum := mzip fdiv X (_auxsum s theta) in
  let g' := sadd (fdiv (c0 hp) (of_nat V))
                 (mzip fmul (mexp (Elogb s))
                            (dot xauxsum (transpose (mexp theta)))) in
  let h' := tile (svadd (c0 hp) (sum_axis1 (mexp theta))) V in
  let '(Eb', Elogb') := _compute_expectations g' h' in
  Params (alpha s) (l s) (u s) g' h' Eb' Elogb'.

(** The body of the loop over [k] in [_update_ql]: the row written to
    [l_temp[k, :]].  Everything is read from [self], that is from [s]. *)
Definition ql_row (hp : hyper F) (X : list (list F)) (s : params F)
  (k : nat) : list F :=
  let Eb_k := col k (Eb s) in
  let Elogb_k := col k (Elogb s) in
  let theta := theta_of s in
  let theta_k := row k theta in
  let xauxsum := mzip fdiv X (_auxsum s theta) in
  let grad := mzip fmul xauxsum (outer (vexp Elogb_k) (vexp theta_k)) in
  let grad := mzip fsub grad (outer Eb_k (vexp theta_k)) in
  let grad := sum_axis01 (tsubv (bmul3 grad (u s)) (row k (l s))) in
  zipw fadd (row k (l s)) (svmul (step_size hp) grad).

(** One pass of the outer loop of [_update_ql]: [l_temp] starts as zeros,
    receives one row per [k], and replaces [self.l] after the last [k]. *)
Definition ql_step (hp : hyper F) (X : list (list F)) (s : params F)
  : params F :=
  let l_temp :=
    fold_left (fun lt k => set_row k (ql_row hp X s k) lt)
              (seq 0 (K hp)) (zeros (nrow (l s)) (ncol (l s))) in
  Params (alpha s) l_temp (u s) (g s) (h s) (Eb s) (Elogb s).

Definition _update_ql (hp : hyper F) (X : list (list F)) (s : params F)
  : params F :=
  Nat.iter (num_steps hp) (ql_step hp X) s.

(** The body of the loop over [d] in [_update_qu]. *)
Definition qu_row (hp : hyper F) (X : list (list F)) (s : params F)
  (d : nat) : list F :=
  let theta := theta_of s in
  let theta_d := col d theta in
  let xauxsum := zipw fdiv (col d X) (_auxsum1 s theta_d) in
  let grad :=
    mul_rowvec (colvec_mul xauxsum (mexp (Elogb s))) (vexp theta_d) in
  let grad := mzip fsub grad (mul_rowvec (Eb s) (vexp theta_d)) in
  let grad := sum_axis01 (tsubv (bmul3 grad (l s)) (row d (u s))) in
  zipw fadd (row d (u s)) (svmul (step_size hp) grad).

Definition qu_step (hp : hyper F) (X : list (list F)) (s : params F)
  : params F :=
  let D := ncol X in
  let u_temp :=
    fold_left (fun ut d => set_row d (qu_row hp X s d) ut)
              (seq 0 D) (zeros (nrow (u s)) (ncol (u s))) in
  Params (alpha s) (l s) u_temp (g s) (h s) (Eb s) (Elogb s).

Definition _update_qu (hp : hyper F) (X : list (list F)) (s : params F)
  : params F :=
  Nat.iter (num_steps hp) (qu_step hp X) s.

Definition _update_alpha (X : list (list F)) (s : params F) : params F :=
  let alpha' :=
    zipw fsub
      (map flog (sum_axis0 X))
      (map flog (sum_axis01
                   (bmul3 (Eb s) (mexp (dot (l s) (transpose (u s))))))) in
  Params alpha' (l s) (u s) (g s) (h s) (Eb s) (Elogb s).

(** [_gamma_term a b shape rate Ex Elogx], with [a] and [b] scalars. *)
Definition _gamma_term (a b : F) (shape rate Ex Elogx : list (list F)) : F :=
  let t := mzip fmul (map (map (fsub a)) shape) Elogx in
  let t := mzip fsub t (mzip fmul (map (map (fsub b)) rate) Ex) in
  let t := mzip fadd t (map (map gammaln) shape) in
  let t := mzip fsub t (mzip fmul shape (mlog rate)) in
  msum t.

Definition _bound (hp : hyper F) (X : list (list F)) (s : params F) : F :=
  let V := nrow X in
  let theta := theta_of s in
  let bound :=
    msum (mzip fsub (mzip fmul X (mlog (_auxsum s theta)))
                    (dot (Eb s) theta)) in
  let bound :=
    fadd bound (_gamma_term (c0 hp) (fdiv (c0 hp) (of_nat V))
                            (g s) (h s) (Eb s) (Elogb s)) in
  let bound :=
    fadd bound
         (msum (mlog (map (map (fun x => norm_pdf x f0 (sigma hp))) (l s))))
  in
  let bound :=
    fadd bound
         (msum (mlog (map (map (fun x => norm_pdf x f0 (of_nat 1))) (u s))))
  in
  bound.

(** One pass of the body of the loop of [_update], up to the computation
    of [elbo_new]: alpha, l, u and, when asked, beta.  The calls to [print]
    only read the state. *)
Definition cycle (hp : hyper F) (X : list (list F)) (update_beta : bool)
  (s : params F) : params F :=
  let s := _update_alpha X s in
  let s := _update_ql hp X s in
  let s := _update_qu hp X s in
  if update_beta then _update_beta hp X s else s.

Context {SO : Ordered F}.

(** [chg = (elbo_new - elbo_old) / abs(elbo_old)] and the test
    [chg < self.tolerance]. *)
Definition converged (hp : hyper F) (elbo_old elbo_new : F) : bool :=
  fltb (fdiv (fsub elbo_new elbo_old) (fabs elbo_old)) (tolerance hp).

(** The loop [for i in range(self.max_iters)] from a given [elbo_old],
    with [n] passes left.  The result carries the number of passes made. *)
Fixpoint update_from (hp : hyper F) (X : list (list F)) (update_beta : bool)
  (n : nat) (elbo_old : F) (s : params F) : params F * nat :=
  match n with
  | 0 => (s, 0)
  | S n' =>
      let s' := cycle hp X update_beta s in
      let elbo_new := _bound hp X s' in
      if converged hp elbo_old elbo_new then (s', 1)
      else
        let '(r, c) := update_from hp X update_beta n' elbo_new s' in
        (r, S c)
  end.

Definition _update (hp : hyper F) (X : list (list F)) (update_beta : bool)
  (s : params F) : params F * nat :=
  update_from hp X update_beta (max_iters hp) neg_inf s.

End Model.

(** ** The Python object *)

(** The exceptions the estimator can raise, with their messages. *)
Inductive exn : Type :=
| ValueError (msg : string)
| TypeError (msg : string)
| AttributeError (msg : string).

(** The attributes of an instance.  The settings are there from the
    constructor on; an array is there once an initialiser or an update has
    assigned it. *)
Record obj (F : Type) := Obj {
  o_hp : hyper F;
  o_alpha : option (list F);
  o_l : option (list (list F));
  o_u : option (list (list F));
  o_g : option (list (list F));
  o_h : option (list (list F));
  o_Eb : option (list (list F));
  o_Elogb : option (list (list F))
}.

(** What [getattr] can hand back. *)
Inductive pyval (F : Type) : Type :=
| PInt (n : nat)
| PFloat (x : F)
| PVec (a : list F)
| PMat (A : list (list F)).

(** The instance together with the state of the generator behind
    [np.random], which the initialisers draw from. *)
Record world (F G : Type) := World {
  self : obj F;
  np_random : G
}.

(** Computations that read and write the world and may raise. *)
Definition M (W A : Type) : Type := W -> (A + exn) * W.

Definition ret {W A : Type} (a : A) : M W A := fun w => (inl a, w).
Definition raise {W A : Type} (e : exn) : M W A := fun w => (inr e, w).
Definition bind {W A B : Type} (c : M W A) (k : A -> M W B) : M W B :=
  fun w =>
    match c w with
    | (inl a, w') => k a w'
    | (inr e, w') => (inr e, w')
    end.

Notation "x <- c ;; k" := (bind c (fun x => k))
  (at level 61, c at next level, right associativity).
Notation "c ;;; k" := (bind c (fun _ => k))
  (at level 61, right associativity).

Section Estimator.
Context {F G : Type} {SF : Scalar F} {SP : Special F} {SO : Ordered F}.

(** One draw each of [np.random.gamma shape scale], of
    [np.random.multivariate_normal mean cov] and of [np.random.random]. *)
Variable rand_gamma : F -> F -> G -> F * G.
Variable rand_mvn : list F -> list (list F) -> G -> list F * G.
Variable rand_random : G -> F * G.

(** [n] successive draws, as numpy fills an array of [n] entries. *)
Fixpoint draws {A : Type} (n : nat) (d : G -> A * G) (r : G) : list A * G :=
  match n with
  | 0 => ([], r)
  | S n' =>
      let '(x, r1) := d r in
      let '(xs, r2) := draws n' d r1 in
      (x :: xs, r2)
  end.

(** [np.eye(n)] *)
Definition eye (n : nat) : list (list F) :=
  map (fun i => map (fun j => if Nat.eqb i j then of_nat 1 else f0)
                    (seq 0 n))
      (seq 0 n).

(** [CMF(...)]: an instance right after the constructor. *)
Definition new (hp : hyper F) : obj F :=
  Obj hp None None None None None None None.

Definition _init_qbeta (V : nat) : M (world F G) unit := fun w =>
  let o := self w in
  let hp := o_hp o in
  let sm := smoothness hp in
  let scale := fdiv (of_nat 1) sm in
  let '(g', r1) := draws V (draws (K hp) (rand_gamma sm scale)) (np_random w) in
  let '(h', r2) := draws V (draws (K hp) (rand_gamma sm scale)) r1 in
  let '(Eb', Elogb') := _compute_expectations g' h' in
  (inl tt,
   World (Obj hp (o_alpha o) (o_l o) (o_u o)
              (Some g') (Some h') (Some Eb') (Some Elogb')) r2).

Definition _init_ql (D : nat) : M (world F G) unit := fun w =>
  let o := self w in
  let hp := o_hp o in
  let mean := repeat f0 (m hp) in
  let cov := map (map (fmul (sigma hp))) (eye (m hp)) in
  let '(z, r1) := draws (K hp) (rand_mvn mean cov) (np_random w) in
  let '(x, r2) := rand_random r1 in
  let shift := fmul x (of_nat D) in
  let l' := map (map (fun y => fadd y shift)) z in
  (inl tt,
   World (Obj hp (o_alpha o) (Some l') (o_u o)
              (o_g o) (o_h o) (o_Eb o) (o_Elogb o)) r2).

Definition _init_qu (D : nat) : M (world F G) unit := fun w =>
  let o := self w in
  let hp := o_hp o in
  let mean := repeat f0 (m hp) in
  let cov := eye (m hp) in
  let '(u', r1) := draws D (rand_mvn mean cov) (np_random w) in
  (inl tt,
   World (Obj hp (o_alpha o) (o_l o) (Some u')
              (o_g o) (o_h o) (o_Eb o) (o_Elogb o)) r1).

(** A call [self.name(args)] of a method declared with one parameter
    after [self]: Python binds the arguments before it runs the body. *)
Definition call1 {A : Type} (name : string) (f : nat -> M (world F G) A)
  (args : list nat) : M (world F G) A :=
  match args with
  | [a] => f a
  | [] => raise (TypeError
                   (name ++ "() missing 1 required positional argument"))
  | _ => raise (TypeError (name ++ "() takes 2 positional arguments"))
  end.

(** A call of a method the class does not define. *)
Definition call_undefined {A : Type} (name : string) (args : list nat)
  : M (world F G) A :=
  raise (AttributeError ("'CMF' object has no attribute '" ++ name ++ "'")).

Definition missing {A : Type} (name : string) : M (world F G) A :=
  raise (AttributeError ("'CMF' object has no attribute '" ++ name ++ "'")).

(** [self._update(X, update_beta)] on the attributes of the instance.
    With [max_iters = 0] the loop body never runs and nothing is read.
    Otherwise the arrays are read in the order Eb, l, u (by
    [_update_alpha]), Elogb, g, h (by [_bound]); alpha is assigned by
    [_update_alpha] before anything reads it. *)
Definition update_self (X : list (list F)) (update_beta : bool)
  : M (world F G) unit := fun w =>
  let o := self w in
  let hp := o_hp o in
  match max_iters hp with
  | 0 => (inl tt, w)
  | S _ =>
      match o_Eb o, o_l o, o_u o, o_Elogb o, o_g o, o_h o with
      | None, _, _, _, _, _ => missing "Eb" w
      | _, None, _, _, _, _ => missing "l" w
      | _, _, None, _, _, _ => missing "u" w
      | _, _, _, None, _, _ => missing "Elogb" w
      | _, _, _, _, None, _ => missing "g" w
      | _, _, _, _, _, None => missing "h" w
      | Some eb, Some l0, Some u0, Some elogb, Some g0, Some h0 =>
          let a0 := match o_alpha o with Some a => a | None => [] end in
          let '(p, _) :=
            _update hp X update_beta (Params a0 l0 u0 g0 h0 eb elogb) in
          (inl tt,
           World (Obj hp (Some (alpha p)) (Some (l p)) (Some (u p))
                      (Some (g p)) (Some (h p)) (Some (Eb p))
                      (Some (Elogb p)))
                 (np_random w))
      end
  end.

Definition fit (X : list (list F)) : M (world F G) unit :=
  let V := nrow X in
  let D := ncol X in
  _init_qbeta V ;;;
  _init_ql D ;;;
  _init_qu D ;;;
  update_self X true ;;;
  ret tt.

(** [getattr(self, attr)] for the arrays and the numeric settings. *)
Definition getattr (attr : string) : M (world F G) (pyval F) := fun w =>
  let o := self w in
  let hp := o_hp o in
  let arr (A : Type) (inj : A -> pyval F) (x : option A) :=
    match x with
    | Some a => (inl (inj a), w)
    | None => missing attr w
    end in
  if String.eqb attr "alpha" then arr _ (@PVec F) (o_alpha o)
  else if String.eqb attr "l" then arr _ (@PMat F) (o_l o)
  else if String.eqb attr "u" then arr _ (@PMat F) (o_u o)
  else if String.eqb attr "g" then arr _ (@PMat F) (o_g o)
  else if String.eqb attr "h" then arr _ (@PMat F) (o_h o)
  else if String.eqb attr "Eb" then arr _ (@PMat F) (o_Eb o)
  else if String.eqb attr "Elogb" then arr _ (@PMat F) (o_Elogb o)
  else if String.eqb attr "K" then (inl (PInt F (K hp)), w)
  else if String.eqb attr "m" then (inl (PInt F (m hp)), w)
  else if String.eqb attr "num_steps" then (inl (PInt F (num_steps hp)), w)
  else if String.eqb attr "max_iters" then (inl (PInt F (max_iters hp)), w)
  else if String.eqb attr "step_size" then (inl (PFloat (step_size hp)), w)
  else if String.eqb attr "tolerance" then (inl (PFloat (tolerance hp)), w)
  else if String.eqb attr "smoothness" then (inl (PFloat (smoothness hp)), w)
  else if String.eqb attr "c0" then (inl (PFloat (c0 hp)), w)
  else if String.eqb attr "sigma" then (inl (PFloat (sigma hp)), w)
  else missing attr w.

(** [transform(self, X, attr='l')]; [None] stands for a call that leaves
    [attr] out. *)
Definition transform (X : list (list F)) (attr : option string)
  : M (world F G) (pyval F) := fun w =>
  let attr := match attr with Some a => a | None => "l"%string end in
  match o_Eb (self w) with
  | None => raise (ValueError "No beta initialized.") w
  | Some eb =>
      let V := nrow X in
      let D := ncol X in
      if negb (Nat.eqb (nrow eb) V)
      then raise (ValueError "Feature dim mismatch.") w
      else
        (call1 "_init_ql" _init_ql [] ;;;
         call1 "_init_qu" _init_qu [D] ;;;
         call_undefined (A := unit) "_init_alpha" [D] ;;;
         update_self X false ;;;
         getattr attr) w
  end.

End Estimator.

(** ** Entries, shapes and the closed forms of the updates *)

Section Entry_forms.
Context {F : Type} {SF : Scalar F}.

(** [A] has [n] rows of length [p]. *)
Definition shape (n p : nat) (A : list (list F)) : Prop :=
  length A = n /\ Forall (fun r => length r = p) A.

(** The entry [A[i, j]]. *)
Definition ent (A : list (list F)) (i j : nat) : F :=
  nth j (nth i A []) f0.

(** The sum of [f 0], ..., [f (n-1)], and the sum of [f i j] over the
    pairs [(i, j)] in row-major order. *)
Definition Sum (n : nat) (f : nat -> F) : F := fsum (map f (seq 0 n)).
Definition Sum2 (n p : nat) (f : nat -> nat -> F) : F :=
  fsum (flat_map (fun i => map (f i) (seq 0 p)) (seq 0 n)).

(** The arrays have the shapes the estimator gives them for an input of
    [V] rows and [D] columns, and no dimension is empty. *)
Record well_shaped (hp : hyper F) (V D : nat) (X : list (list F))
  (s : params F) : Prop := {
  ws_V : 1 <= V;
  ws_D : 1 <= D;
  ws_K : 1 <= K hp;
  ws_m : 1 <= m hp;
  ws_X : shape V D X;
  ws_l : shape (K hp) (m hp) (l s);
  ws_u : shape D (m hp) (u s);
  ws_alpha : length (alpha s) = D;
  ws_Eb : shape V (K hp) (Eb s);
  ws_Elogb : shape V (K hp) (Elogb s)
}.

(** [(l . u^T)[k, d]], [theta[k, d]] and [auxsum(theta)[v, d]]. *)
Definition lu_at (hp : hyper F) (s : params F) (k d : nat) : F :=
  Sum (m hp) (fun j => fmul (ent (l s) k j) (ent (u s) d j)).

Definition theta_at (hp : hyper F) (s : params F) (k d : nat) : F :=
  fadd (nth d (alpha s) f0) (lu_at hp s k d).

Definition auxsum_at (hp : hyper F) (s : params F) (v d : nat) : F :=
  Sum (K hp)
      (fun k => fmul (fexp (ent (Elogb s) v k)) (fexp (theta_at hp s k d))).

(** The entries of the new [g] and [h] of the beta update. *)
Definition beta_g_at (hp : hyper F) (V D : nat) (X : list (list F))
  (s : params F) (v k : nat) : F :=
  fadd (fdiv (c0 hp) (of_nat V))
       (fmul (fexp (ent (Elogb s) v k))
             (Sum D (fun d => fmul (fdiv (ent X v d) (auxsum_at hp s v d))
                                   (fexp (theta_at hp s k d))))).

Definition beta_h_at (hp : hyper F) (D : nat) (s : params F) (k : nat) : F :=
  fadd (c0 hp) (Sum D (fun d => fexp (theta_at hp s k d))).


(** The entry (v, d) of the array [grad] of the l update for the index [k],
    before its last reassignment:
    [(X / auxsum) * exp(Elogb_k) * exp(theta_k) - Eb_k * exp(theta_k)]. *)
Definition ql_term (hp : hyper F) (X : list (list F)) (s : params F)
  (k v d : nat) : F :=
  fsub (fmul (fdiv (ent X v d) (auxsum_at hp s v d))
             (fmul (fexp (ent (Elogb s) v k)) (fexp (theta_at hp s k d))))
       (fmul (ent (Eb s) v k) (fexp (theta_at hp s k d))).

(** The component [j] of the gradient as the code sums it: the entry of
    [l_k] stands inside the sum over (v, d). *)
Definition ql_grad_at (hp : hyper F) (V D : nat) (X : list (list F))
  (s : params F) (k j : nat) : F :=
  Sum2 V D (fun v d => fsub (fmul (ql_term hp X s k v d) (ent (u s) d j))
                            (ent (l s) k j)).

(** The component [j] of the gradient in the words of the specification:
    the sum over (v, d) of the terms times [u], minus [l_k] once. *)
Definition ql_grad_spec_at (hp : hyper F) (V D : nat) (X : list (list F))
  (s : params F) (k j : nat) : F :=
  fsub (Sum2 V D (fun v d => fmul (ql_term hp X s k v d) (ent (u s) d j)))
       (ent (l s) k j).

(** One inner step of the l update in the words of the specification:
    the indices are processed in turn and each one reads the rows the
    earlier ones have already replaced. *)
Definition ql_step_sequential (hp : hyper F) (X : list (list F))
  (s : params F) : params F :=
  fold_left
    (fun st k =>
       Params (alpha st) (set_row k (ql_row hp X st k) (l st)) (u st)
              (g st) (h st) (Eb st) (Elogb st))
    (seq 0 (K hp)) s.

End Entry_forms.

(** ** The link between (g, h) and (Eb, Elogb) *)

Section Invariants.
Context {F : Type} {SF : Scalar F} {SP : Special F}.

(** The stored expectations are those of the stored [g] and [h]:
    [Eb = g / h] and [Elogb = psi(g) - log(h)], entry by entry. *)
Definition consistent (s : params F) : Prop :=
  Eb s = mzip fdiv (g s) (h s) /\
  Elogb s = mzip fsub (map (map psi) (g s)) (mlog (h s)).

(** [s'] holds the same [g], [h], [Eb] and [Elogb] as [s]. *)
Definition same_beta (s s' : params F) : Prop :=
  g s' = g s /\ h s' = h s /\ Eb s' = Eb s /\ Elogb s' = Elogb s.

(** [Eb] and [Elogb] have one row per row of [X]. *)
Definition rows_ok (X : list (list F)) (s : params F) : Prop :=
  nrow (Eb s) = nrow X /\ nrow (Elogb s) = nrow X.

End Invariants.

(** ** The passes of the loop *)

Section Loop_forms.
Context {F : Type} {SF : Scalar F} {SP : Special F} {SO : Ordered F}.

(** The arrays after [t] passes of the body of the loop of [_update]. *)
Definition state_after (hp : hyper F) (X : list (list F)) (ub : bool)
  (s : params F) (t : nat) : params F :=
  Nat.iter t (cycle hp X ub) s.

(** The value of [elbo_old] once [t] passes have been made: [-np.inf]
    before the first pass, the bound of the last pass afterwards. *)
Definition elbo_before (hp : hyper F) (X : list (list F)) (ub : bool)
  (s : params F) (t : nat) : F :=
  match t with
  | 0 => neg_inf
  | S _ => _bound hp X (state_after hp X ub s t)
  end.

(** The outcome of the test [chg < self.tolerance] in the pass in which
    the loop variable [i] of [_update] is [t]. *)
Definition stops_in_pass (hp : hyper F) (X : list (list F)) (ub : bool)
  (s : params F) (t : nat) : bool :=
  converged hp (elbo_before hp X ub s t)
            (_bound hp X (state_after hp X ub s (S t))).

End Loop_forms.

(** ** Two kinds of entries *)

(** The real numbers: exact arithmetic, with the exponential and the
    logarithm of the library. *)
#[export] Instance Scalar_R : Scalar R := {|
  f0 := 0%R;
  fadd := Rplus;
  fsub := Rminus;
  fmul := Rmult;
  fdiv := Rdiv;
  fexp := exp;
  flog := ln;
  of_nat := INR
|}.

(** IEEE binary64, the entries numpy computes with.  The four operations,
    [abs], [<] and the infinities are those of the standard; the exponential
    and the logarithm come from the C library and are left open. *)
Module B64.

Definition prec : Z := 53%Z.
Definition emax : Z := 1024%Z.

Definition scalar (libm_exp libm_log : SpecFloat.spec_float -> SpecFloat.spec_float)
  : Scalar SpecFloat.spec_float := {|
  f0 := SpecFloat.S754_zero false;
  fadd := SpecFloat.SFadd prec emax;
  fsub := SpecFloat.SFsub prec emax;
  fmul := SpecFloat.SFmul prec emax;
  fdiv := SpecFloat.SFdiv prec emax;
  fexp := libm_exp;
  flog := libm_log;
  of_nat := fun n =>
    SpecFloat.binary_normalize prec emax (Z.of_nat n) 0%Z false
|}.

Definition ordered : Ordered SpecFloat.spec_float := {|
  neg_inf := SpecFloat.S754_infinity true;
  fabs := SpecFloat.SFabs;
  fltb := SpecFloat.SFltb
|}.

End B64.

(** ** Small inputs over the reals *)

Module Sample.
Local Open Scope R_scope.

(** Real-valued stand-ins for scipy's functions, to run the model on the
    inputs below: the normal density, and the leading terms of the digamma
    and log-gamma functions.  No result depends on what they compute. *)
Definition special : Special R := {|
  psi := ln;
  gammaln := fun x => x * ln x - x;
  norm_pdf := fun x loc scale =>
    exp (- ((x - loc) / scale) * ((x - loc) / scale) / 2)
    / (scale * sqrt (2 * PI))
|}.

(** Rank [k], latent dimension 1, one inner step of size 1, one pass. *)
Definition hp (k : nat) : hyper R :=
  Hyper k 1%nat 1%nat 1 1%nat 0 1 1 1.

(** One row, one column. *)
Definition X1 : list (list R) := [[1]].
Definition s1 : params R :=
  Params [0] [[0]] [[0]] [[1]] [[1]] [[1]] [[0]].

(** One row, two columns, and a [u] that is zero. *)
Definition X2 : list (list R) := [[1; 1]].
Definition s2 : params R :=
  Params [0; 0] [[1]] [[0]; [0]] [[1]] [[1]] [[1]] [[0]].

(** Rank 2 on a single entry; the rows of [l] are [[a]] and [[b]]. *)
Definition X3 : list (list R) := [[2]].
Definition s3 (a b : R) : params R :=
  Params [0] [[a]; [b]] [[1]] [[1; 1]] [[1; 1]] [[0; 0]] [[0; 0]].

(** The value the l update writes for a row of [s3] that holds [x], when
    the two rows hold [a] and [b]. *)
Definition new_l3 (a b x : R) : R :=
  x + 1 * (2 / (exp a + exp b) * exp x - x).

(** Binary64 entries, with the identity standing for the functions of the
    C library and of scipy. *)
Definition libm_id (x : SpecFloat.spec_float) : SpecFloat.spec_float := x.
Definition b64 : Scalar SpecFloat.spec_float := B64.scalar libm_id libm_id.
Definition b64_special : Special SpecFloat.spec_float := {|
  psi := libm_id;
  gammaln := libm_id;
  norm_pdf := fun x _ _ => x
|}.

Definition zero : SpecFloat.spec_float := SpecFloat.S754_zero false.
Definition one : SpecFloat.spec_float :=
  SpecFloat.S754_finite false 4503599627370496 (-52).

Definition hpf : hyper SpecFloat.spec_float :=
  Hyper 1%nat 1%nat 1%nat one 1%nat zero one one one.
Definition Xf : list (list SpecFloat.spec_float) := [[one]].
Definition sf : params SpecFloat.spec_float :=
  Params [zero] [[zero]] [[zero]] [[one]] [[one]] [[one]] [[zero]].

(** An input whose only entry is a NaN. *)
Definition Xnan : list (list SpecFloat.spec_float) := [[SpecFloat.S754_nan]].

(** A generator that always draws the same values. *)
Definition gamma_draw
  : SpecFloat.spec_float -> SpecFloat.spec_float -> unit
    -> SpecFloat.spec_float * unit :=
  fun _ _ r => (one, r).
Definition mvn_draw
  : list SpecFloat.spec_float -> list (list SpecFloat.spec_float) -> unit
    -> list SpecFloat.spec_float * unit :=
  fun mean _ r => (mean, r).
Definition random_draw : unit -> SpecFloat.spec_float * unit :=
  fun r => (zero, r).

(** A fresh instance, and one that holds the arrays [sf]. *)
Definition fresh : world SpecFloat.spec_float unit := World (new hpf) tt.
Definition fitted : world SpecFloat.spec_float unit :=
  World (Obj hpf (Some (alpha sf)) (Some (l sf)) (Some (u sf))
             (Some (g sf)) (Some (h sf)) (Some (Eb sf)) (Some (Elogb sf)))
        tt.

End Sample.

(** ** The closed forms of the u update and of the bound *)

Section More_forms.
Context {F : Type} {SF : Scalar F}.

(** The entry (v, k) of the array [grad] of the u update for the column
    [d], before its last reassignment:
    [(X[:, d] / auxsum) * exp(Elogb) * exp(theta_d) - Eb * exp(theta_d)]. *)
Definition qu_term (hp : hyper F) (X : list (list F)) (s : params F)
  (d v k : nat) : F :=
  fsub (fmul (fmul (fdiv (ent X v d) (auxsum_at hp s v d))
                   (fexp (ent (Elogb s) v k)))
             (fexp (theta_at hp s k d)))
       (fmul (ent (Eb s) v k) (fexp (theta_at hp s k d))).

(** The component [j] of the gradient of the u update for the column [d],
    as the code sums it. *)
Definition qu_grad_at (hp : hyper F) (V : nat) (X : list (list F))
  (s : params F) (d j : nat) : F :=
  Sum2 V (K hp)
       (fun v k => fsub (fmul (qu_term hp X s d v k) (ent (l s) k j))
                        (ent (u s) d j)).

(** [s'] differs from [s] in [l] at most, and in [u] at most. *)
Definition only_l (s s' : params F) : Prop :=
  alpha s' = alpha s /\ u s' = u s /\ g s' = g s /\ h s' = h s /\
  Eb s' = Eb s /\ Elogb s' = Elogb s.
Definition only_u (s s' : params F) : Prop :=
  alpha s' = alpha s /\ l s' = l s /\ g s' = g s /\ h s' = h s /\
  Eb s' = Eb s /\ Elogb s' = Elogb s.

End More_forms.

(** ** The closed form of the bound *)

Section Bound_forms.
Context {F : Type} {SF : Scalar F} {SP : Special F}.

(** The sum [_gamma_term] takes, over the entries of arrays of shape
    (n, p). *)
Definition gamma_term_at (a b : F) (shape rate Ex Elogx : list (list F))
  (n p : nat) : F :=
  Sum2 n p
       (fun v k =>
          fsub (fadd (fsub (fmul (fsub a (ent shape v k)) (ent Elogx v k))
                           (fmul (fsub b (ent rate v k)) (ent Ex v k)))
                     (gammaln (ent shape v k)))
               (fmul (ent shape v k) (flog (ent rate v k)))).

(** The four parts of the bound, added in the order of the code: the data
    term, the gamma term, and the log-densities of [l] and of [u]. *)
Definition bound_at (hp : hyper F) (V D : nat) (X : list (list F))
  (s : params F) : F :=
  fadd
    (fadd
       (fadd
          (Sum2 V D
                (fun v d =>
                   fsub (fmul (ent X v d) (flog (auxsum_at hp s v d)))
                        (Sum (K hp)
                             (fun k => fmul (ent (Eb s) v k)
                                            (theta_at hp s k d)))))
          (gamma_term_at (c0 hp) (fdiv (c0 hp) (of_nat V))
                         (g s) (h s) (Eb s) (Elogb s) V (K hp)))
       (Sum2 (K hp) (m hp)
             (fun k j => flog (norm_pdf (ent (l s) k j) f0 (sigma hp)))))
    (Sum2 D (m hp)
          (fun d j => flog (norm_pdf (ent (u s) d j) f0 (of_nat 1)))).

End Bound_forms.

(** ** What [fit] draws *)

Section Fit_forms.
Context {F G : Type} {SF : Scalar F} {SP : Special F}.
Variable rand_gamma : F -> F -> G -> F * G.
Variable rand_mvn : list F -> list (list F) -> G -> list F * G.
Variable rand_random : G -> F * G.




End Fit_forms.

(** ** Signs of binary64 numbers *)

Module Sign.

(** [0 < x]: a finite number or an infinity with a clear sign bit. *)
Definition positive (x : SpecFloat.spec_float) : Prop :=
  match x with
  | SpecFloat.S754_finite false _ _ | SpecFloat.S754_infinity false => True
  | _ => False
  end.

(** Not below zero: a NaN, a zero of either sign, or a finite number or an
    infinity with a clear sign bit. *)
Definition not_negative (x : SpecFloat.spec_float) : Prop :=
  match x with
  | SpecFloat.S754_nan | SpecFloat.S754_zero _ => True
  | SpecFloat.S754_infinity s | SpecFloat.S754_finite s _ _ => s = false
  end.

(** A NaN, or a value with a clear sign bit: not below zero, and not the
    negative zero. *)
Definition unsigned (x : SpecFloat.spec_float) : Prop :=
  match x with
  | SpecFloat.S754_nan => True
  | SpecFloat.S754_zero s | SpecFloat.S754_infinity s
  | SpecFloat.S754_finite s _ _ => s = false
  end.

(** A zero of either sign. *)
Definition is_zero (x : SpecFloat.spec_float) : Prop :=
  match x with
  | SpecFloat.S754_zero _ => True
  | _ => False
  end.

(** A zero of either sign, or a NaN. *)
Definition zero_or_nan (x : SpecFloat.spec_float) : Prop :=
  match x with
  | SpecFloat.S754_zero _ | SpecFloat.S754_nan => True
  | _ => False
  end.

(** The exponent of a finite number is not below the least exponent of the
    format. *)
Definition above_emin (x : SpecFloat.spec_float) : Prop :=
  match x with
  | SpecFloat.S754_finite _ _ e =>
      (SpecFloat.emin B64.prec B64.emax <= e)%Z
  | _ => True
  end.

End Sign.

(** ** Inputs at the ends of the binary64 range *)

Module Edge.

(** The least positive binary64 number, [2^-1074], and [1024]. *)
Definition least : SpecFloat.spec_float :=
  SpecFloat.S754_finite false 1 (-1074).
Definition big : SpecFloat.spec_float :=
  SpecFloat.S754_finite false 4503599627370496 (-42).

(** Rank 1, latent dimension 1, and [c0 = 2^-1074]. *)
Definition hp_least : hyper SpecFloat.spec_float :=
  Hyper 1%nat 1%nat 1%nat Sample.one 1%nat Sample.zero Sample.one least
        Sample.one.

(** Two rows, one column, no counts; [g] and [h] are 1, and alpha, [l]
    and [u] are 0. *)
Definition X_empty : list (list SpecFloat.spec_float) :=
  [[Sample.zero]; [Sample.zero]].
Definition s_empty : params SpecFloat.spec_float :=
  Params [Sample.zero] [[Sample.zero]] [[Sample.zero]]
         [[Sample.one]; [Sample.one]] [[Sample.one]; [Sample.one]]
         [[Sample.one]; [Sample.one]] [[Sample.zero]; [Sample.zero]].

(** One row, one column, [l = 1024] and [u = 1], for the input
    [Sample.Xf] and the settings [Sample.hpf]. *)
Definition s_big : params SpecFloat.spec_float :=
  Params [Sample.zero] [[big]] [[Sample.one]] [[Sample.one]] [[Sample.one]]
         [[Sample.one]] [[Sample.zero]].

End Edge.

(** ** Shapes and entries *)

Section Entries.
Context {F : Type} {SF : Scalar F}.

Lemma nth_map_seq {A : Type} (f : nat -> A) (n i : nat) (d : A) :
  i < n -> nth i (map f (seq 0 n)) d = f i.
Proof.
  intros Hi.
  rewrite (nth_indep _ d (f 0)) by (rewrite length_map, length_seq; lia).
  rewrite map_nth, seq_nth by lia. reflexivity.
Qed.

Lemma nth_map_in {A B : Type} (f : A -> B) (xs : list A) (i : nat)
  (da : A) (db : B) :
  i < length xs -> nth i (map f xs) db = f (nth i xs da).
Proof.
  intros Hi.
  rewrite (nth_indep _ db (f da)) by (rewrite length_map; lia).
  apply map_nth.
Qed.

Lemma length_zipw {A B C : Type} (f : A -> B -> C) (xs : list A)
  (ys : list B) :
  length (zipw f xs ys) = Nat.min (length xs) (length ys).
Proof.
  revert ys; induction xs as [|x xs IH]; intros [|y ys]; simpl; auto.
Qed.

Lemma nth_zipw {A B C : Type} (f : A -> B -> C) (xs : list A) (ys : list B)
  (i : nat) (da : A) (db : B) (dc : C) :
  i < length xs -> i < length ys ->
  nth i (zipw f xs ys) dc = f (nth i xs da) (nth i ys db).
Proof.
  revert ys i; induction xs as [|x xs IH]; intros [|y ys] [|i]; simpl;
    intros; try lia; auto.
  apply IH; lia.
Qed.

Lemma zipw_map_seq {A B C : Type} (f : A -> B -> C) (xs : list A)
  (ys : list B) (n : nat) (da : A) (db : B) :
  length xs = n -> length ys = n ->
  zipw f xs ys = map (fun i => f (nth i xs da) (nth i ys db)) (seq 0 n).
Proof.
  intros Hx Hy.
  destruct n as [|n].
  - destruct xs; [reflexivity | discriminate].
  - apply (nth_ext _ _ (f da db) (f da db)).
    + rewrite length_zipw, length_map, length_seq; lia.
    + intros i Hi. rewrite length_zipw in Hi.
      rewrite (nth_zipw f xs ys da db) by lia.
      rewrite nth_map_seq by lia. reflexivity.
Qed.

Lemma Sum_ext (n : nat) (f f' : nat -> F) :
  (forall i, i < n -> f i = f' i) -> Sum n f = Sum n f'.
Proof.
  intros E. unfold Sum. f_equal. apply map_ext_in.
  intros i Hi. apply in_seq in Hi. apply E; lia.
Qed.

Lemma Sum2_ext (n p : nat) (f f' : nat -> nat -> F) :
  (forall i j, i < n -> j < p -> f i j = f' i j) ->
  Sum2 n p f = Sum2 n p f'.
Proof.
  intros E. unfold Sum2. f_equal.
  rewrite !flat_map_concat_map. f_equal. apply map_ext_in.
  intros i Hi. apply in_seq in Hi. apply map_ext_in.
  intros j Hj. apply in_seq in Hj. apply E; lia.
Qed.

(** *** Shapes *)

Lemma shape_row (n p : nat) (A : list (list F)) (i : nat) :
  shape n p A -> i < n -> length (nth i A []) = p.
Proof.
  intros [Hn Hr] Hi. rewrite Forall_forall in Hr.
  apply Hr, nth_In. lia.
Qed.

Lemma shape_ncol (n p : nat) (A : list (list F)) :
  shape n p A -> 1 <= n -> ncol A = p.
Proof.
  intros [Hn Hr] H1. unfold ncol.
  destruct A as [|a A]; simpl in *; [lia|].
  inversion Hr; auto.
Qed.

Lemma shape_map (n p : nat) (f : F -> F) (A : list (list F)) :
  shape n p A -> shape n p (map (map f) A).
Proof.
  intros [Hn Hr]. split.
  - rewrite length_map; auto.
  - rewrite Forall_map. eapply Forall_impl; [|exact Hr].
    intros r E; simpl. rewrite length_map; auto.
Qed.

Lemma shape_mzip (n p : nat) (f : F -> F -> F) (A B : list (list F)) :
  shape n p A -> shape n p B -> shape n p (mzip f A B).
Proof.
  intros [HA HrA] [HB HrB]. unfold mzip. split.
  - rewrite length_zipw; lia.
  - subst n. revert B HB HrB.
    induction A as [|a A IH]; intros [|b B] HB HrB; simpl; auto;
      try discriminate.
    inversion HrA; inversion HrB; subst.
    constructor.
    + rewrite length_zipw; lia.
    + apply IH; auto.
Qed.

Lemma shape_tabulate (n p : nat) (f : nat -> nat -> F) :
  shape n p (map (fun i => map (f i) (seq 0 p)) (seq 0 n)).
Proof.
  split.
  - rewrite length_map, length_seq; auto.
  - rewrite Forall_map, Forall_forall. intros i _.
    rewrite length_map, length_seq; auto.
Qed.

Lemma shape_dot (n p q : nat) (A B : list (list F)) :
  shape n p A -> shape p q B -> 1 <= p -> shape n q (dot A B).
Proof.
  intros [HA HrA] HB H1. unfold dot. split.
  - rewrite length_map; auto.
  - rewrite Forall_map, Forall_forall. intros a _.
    rewrite length_map, length_seq. eapply shape_ncol; eauto.
Qed.

Lemma shape_transpose (n p : nat) (A : list (list F)) :
  shape n p A -> 1 <= n -> shape p n (transpose A).
Proof.
  intros HA H1. unfold transpose.
  rewrite (shape_ncol HA H1). split.
  - rewrite length_map, length_seq; auto.
  - rewrite Forall_map, Forall_forall. intros j _.
    unfold col. rewrite length_map. apply HA.
Qed.

Lemma shape_add_rowvec (n p : nat) (a : list F) (A : list (list F)) :
  length a = p -> shape n p A -> shape n p (add_rowvec a A).
Proof.
  intros Ha [Hn Hr]. unfold add_rowvec. split.
  - rewrite length_map; auto.
  - rewrite Forall_map. eapply Forall_impl; [|exact Hr].
    intros r E; simpl in *. rewrite length_zipw; lia.
Qed.

(** *** Entries *)

Lemma ent_map (n p : nat) (f : F -> F) (A : list (list F)) (i j : nat) :
  shape n p A -> i < n -> j < p ->
  ent (map (map f) A) i j = f (ent A i j).
Proof.
  intros HA Hi Hj. unfold ent.
  rewrite (nth_map_in (map f) A [] []) by (destruct HA; lia).
  apply nth_map_in. rewrite (shape_row HA Hi); auto.
Qed.

Lemma ent_mzip (n p : nat) (f : F -> F -> F) (A B : list (list F))
  (i j : nat) :
  shape n p A -> shape n p B -> i < n -> j < p ->
  ent (mzip f A B) i j = f (ent A i j) (ent B i j).
Proof.
  intros HA HB Hi Hj. unfold ent, mzip.
  rewrite (nth_zipw (zipw f) A B [] [] [])
    by (destruct HA, HB; lia).
  apply nth_zipw.
  - rewrite (shape_row HA Hi); auto.
  - rewrite (shape_row HB Hi); auto.
Qed.


Lemma row_ent (n p : nat) (A : list (list F)) (i : nat) :
  shape n p A -> i < n ->
  nth i A [] = map (fun j => ent A i j) (seq 0 p).
Proof.
  intros HA Hi. unfold ent.
  apply (nth_ext _ _ f0 f0).
  - rewrite length_map, length_seq. apply (shape_row HA Hi).
  - intros j Hj. rewrite (shape_row HA Hi) in Hj.
    rewrite nth_map_seq by lia. reflexivity.
Qed.

Lemma vdot_Sum (n : nat) (a b : list F) :
  length a = n -> length b = n ->
  vdot a b = Sum n (fun t => fmul (nth t a f0) (nth t b f0)).
Proof.
  intros Ha Hb. unfold vdot, Sum.
  rewrite (zipw_map_seq fmul a b f0 f0 Ha Hb). reflexivity.
Qed.

Lemma ent_dot (n p q : nat) (A B : list (list F)) (i j : nat) :
  shape n p A -> shape p q B -> 1 <= p -> i < n -> j < q ->
  ent (dot A B) i j = Sum p (fun t => fmul (ent A i t) (ent B t j)).
Proof.
  intros HA HB H1 Hi Hj. unfold ent at 1, dot.
  rewrite (nth_map_in _ A [] []) by (destruct HA; lia).
  rewrite (shape_ncol HB H1), nth_map_seq by lia.
  rewrite (vdot_Sum (n := p)).
  - apply Sum_ext. intros t Ht. unfold ent. f_equal.
    unfold col.
    apply (nth_map_in (fun r => nth j r f0) B [] f0). destruct HB; lia.
  - apply (shape_row HA Hi).
  - unfold col. rewrite length_map. apply HB.
Qed.

Lemma ent_transpose (n p : nat) (A : list (list F)) (i j : nat) :
  shape n p A -> 1 <= n -> i < p -> j < n ->
  ent (transpose A) i j = ent A j i.
Proof.
  intros HA H1 Hi Hj. unfold ent at 1, transpose.
  rewrite (shape_ncol HA H1), nth_map_seq by lia.
  unfold col.
  apply (nth_map_in (fun r => nth i r f0) A [] f0). destruct HA; lia.
Qed.

Lemma ent_add_rowvec (n p : nat) (a : list F) (A : list (list F))
  (i j : nat) :
  length a = p -> shape n p A -> i < n -> j < p ->
  ent (add_rowvec a A) i j = fadd (nth j a f0) (ent A i j).
Proof.
  intros Ha HA Hi Hj. unfold ent, add_rowvec.
  rewrite (nth_map_in _ A [] []) by (destruct HA; lia).
  apply nth_zipw; [lia|]. rewrite (shape_row HA Hi); auto.
Qed.

(** *** Arrays of three dimensions *)

Lemma bmul3_tab (n p : nat) (A B : list (list F)) :
  shape n p A -> length B = p ->
  bmul3 A B
  = map (fun i => map (fun t => map (fmul (ent A i t)) (nth t B []))
                      (seq 0 p))
        (seq 0 n).
Proof.
  intros HA HB. unfold bmul3.
  apply (nth_ext _ _ [] []).
  - rewrite !length_map, length_seq. apply HA.
  - intros i Hi. rewrite length_map in Hi.
    assert (Hin : i < n) by (destruct HA; lia).
    rewrite (nth_map_in _ A [] []) by lia.
    rewrite nth_map_seq by lia.
    rewrite (zipw_map_seq (fun x b => map (fmul x) b) (nth i A []) B f0 []
                          (shape_row HA Hin) HB).
    reflexivity.
Qed.

Lemma tsubv_tab (n p : nat) (f : nat -> nat -> list F) (r : list F) :
  tsubv (map (fun i => map (f i) (seq 0 p)) (seq 0 n)) r
  = map (fun i => map (fun t => zipw fsub (f i t) r) (seq 0 p)) (seq 0 n).
Proof.
  unfold tsubv. rewrite map_map. apply map_ext. intros i.
  rewrite map_map. reflexivity.
Qed.

Lemma col_concat_tab (n p : nat) (f : nat -> nat -> list F) (j : nat) :
  col j (concat (map (fun i => map (f i) (seq 0 p)) (seq 0 n)))
  = flat_map (fun i => map (fun t => nth j (f i t) f0) (seq 0 p)) (seq 0 n).
Proof.
  unfold col. rewrite concat_map, map_map, flat_map_concat_map.
  f_equal. apply map_ext. intros i. rewrite map_map. reflexivity.
Qed.

Lemma ncol_concat_tab (n p q : nat) (f : nat -> nat -> list F) :
  1 <= n -> 1 <= p -> length (f 0 0) = q ->
  ncol (concat (map (fun i => map (f i) (seq 0 p)) (seq 0 n))) = q.
Proof.
  intros Hn Hp Hq. destruct n as [|n]; [lia|]. destruct p as [|p]; [lia|].
  unfold ncol. simpl. exact Hq.
Qed.

Lemma length_sum_axis01_tab (n p q : nat) (f : nat -> nat -> list F) :
  1 <= n -> 1 <= p -> length (f 0 0) = q ->
  length (sum_axis01 (map (fun i => map (f i) (seq 0 p)) (seq 0 n))) = q.
Proof.
  intros Hn Hp Hq. unfold sum_axis01, sum_axis0.
  rewrite length_map, length_seq. apply ncol_concat_tab; auto.
Qed.

Lemma nth_sum_axis01_tab (n p q : nat) (f : nat -> nat -> list F) (j : nat) :
  1 <= n -> 1 <= p -> length (f 0 0) = q -> j < q ->
  nth j (sum_axis01 (map (fun i => map (f i) (seq 0 p)) (seq 0 n))) f0
  = Sum2 n p (fun i t => nth j (f i t) f0).
Proof.
  intros Hn Hp Hq Hj. unfold sum_axis01, sum_axis0.
  rewrite (ncol_concat_tab f Hn Hp Hq), nth_map_seq by lia.
  rewrite col_concat_tab. reflexivity.
Qed.

Lemma shape_outer (a b : list F) : shape (length a) (length b) (outer a b).
Proof.
  unfold outer. split.
  - apply length_map.
  - rewrite Forall_map, Forall_forall. intros x _. apply length_map.
Qed.

Lemma ent_outer (a b : list F) (i j : nat) :
  i < length a -> j < length b ->
  ent (outer a b) i j = fmul (nth i a f0) (nth j b f0).
Proof.
  intros Hi Hj. unfold ent, outer.
  rewrite (nth_map_in _ a f0 []) by lia.
  apply nth_map_in; auto.
Qed.

Lemma nth_col (n p : nat) (A : list (list F)) (i j : nat) :
  shape n p A -> i < n -> nth i (col j A) f0 = ent A i j.
Proof.
  intros [Hn _] Hi. unfold col, ent.
  apply (nth_map_in (fun r => nth j r f0) A [] f0). lia.
Qed.

Lemma length_col (n p : nat) (A : list (list F)) (j : nat) :
  shape n p A -> length (col j A) = n.
Proof. intros [Hn _]. unfold col. rewrite length_map; auto. Qed.

Lemma forall_ent (n p : nat) (P : F -> Prop) (A : list (list F)) :
  shape n p A ->
  (forall i j, i < n -> j < p -> P (ent A i j)) ->
  Forall (Forall P) A.
Proof.
  intros HA HP. apply Forall_forall. intros r Hr.
  destruct (In_nth _ _ [] Hr) as [i [Hi Er]].
  assert (Hin : i < n) by (destruct HA; lia).
  apply Forall_forall. intros x Hx.
  destruct (In_nth _ _ f0 Hx) as [j [Hj Ex]].
  subst r x. apply HP; auto.
  rewrite (shape_row HA Hin) in Hj; auto.
Qed.

End Entries.

(** ** The closed forms of the updates, entry by entry *)

Section Closed_forms.
Context {F : Type} {SF : Scalar F}.

Section Shaped.
Variables (hp : hyper F) (V D : nat) (X : list (list F)) (s : params F).
Hypothesis WS : well_shaped hp V D X s.

Lemma shape_lu : shape (K hp) D (dot (l s) (transpose (u s))).
Proof.
  destruct WS.
  eapply shape_dot; eauto. apply shape_transpose; auto.
Qed.

Lemma ent_lu (k d : nat) :
  k < K hp -> d < D ->
  ent (dot (l s) (transpose (u s))) k d = lu_at hp s k d.
Proof.
  intros Hk Hd. destruct WS.
  rewrite (ent_dot (n := K hp) (p := m hp) (q := D)); auto.
  - apply Sum_ext. intros j Hj. f_equal.
    apply (ent_transpose (n := D) (p := m hp)); auto.
  - apply shape_transpose; auto.
Qed.

Lemma shape_theta : shape (K hp) D (theta_of s).
Proof.
  unfold theta_of. apply shape_add_rowvec.
  - apply WS.
  - apply shape_lu.
Qed.

Lemma ent_theta (k d : nat) :
  k < K hp -> d < D -> ent (theta_of s) k d = theta_at hp s k d.
Proof.
  intros Hk Hd. unfold theta_of, theta_at.
  rewrite (ent_add_rowvec (n := K hp) (p := D)); auto.
  - f_equal. apply ent_lu; auto.
  - apply WS.
  - apply shape_lu.
Qed.

Lemma shape_mexp (n p : nat) (A : list (list F)) :
  shape n p A -> shape n p (mexp A).
Proof. apply shape_map. Qed.

Lemma ent_mexp (n p : nat) (A : list (list F)) (i j : nat) :
  shape n p A -> i < n -> j < p -> ent (mexp A) i j = fexp (ent A i j).
Proof. apply ent_map. Qed.

Lemma shape_auxsum : shape V D (_auxsum s (theta_of s)).
Proof.
  unfold _auxsum. destruct WS.
  apply (shape_dot (p := K hp)); auto.
  - apply shape_mexp; auto.
  - apply shape_mexp, shape_theta.
Qed.

Lemma ent_auxsum (v d : nat) :
  v < V -> d < D ->
  ent (_auxsum s (theta_of s)) v d = auxsum_at hp s v d.
Proof.
  intros Hv Hd. unfold _auxsum, auxsum_at. destruct WS.
  rewrite (ent_dot (n := V) (p := K hp) (q := D)); auto.
  - apply Sum_ext. intros k Hk.
    rewrite (ent_mexp (n := V) (p := K hp)) by auto.
    rewrite (ent_mexp (n := K hp) (p := D)) by (auto using shape_theta).
    rewrite ent_theta by auto. reflexivity.
  - apply shape_mexp; auto.
  - apply shape_mexp, shape_theta.
Qed.

Lemma shape_xauxsum :
  shape V D (mzip fdiv X (_auxsum s (theta_of s))).
Proof. apply shape_mzip; [apply WS | apply shape_auxsum]. Qed.

Lemma ent_xauxsum (v d : nat) :
  v < V -> d < D ->
  ent (mzip fdiv X (_auxsum s (theta_of s))) v d
  = fdiv (ent X v d) (auxsum_at hp s v d).
Proof.
  intros Hv Hd.
  rewrite (ent_mzip (n := V) (p := D)); auto.
  - rewrite ent_auxsum; auto.
  - apply WS.
  - apply shape_auxsum.
Qed.

End Shaped.

End Closed_forms.

(** ** The beta update *)

Section Beta_update.
Context {F : Type} {SF : Scalar F} {SP : Special F}.

Lemma nth_repeat_lt {A : Type} (a d : A) (n i : nat) :
  i < n -> nth i (repeat a n) d = a.
Proof.
  revert i; induction n as [|n IH]; intros [|i] Hi; simpl; try lia; auto.
  apply IH; lia.
Qed.

Lemma shape_tile (a : list F) (n : nat) : shape n (length a) (tile a n).
Proof.
  unfold tile. split.
  - apply repeat_length.
  - apply Forall_forall. intros r Hr.
    apply repeat_spec in Hr. subst; reflexivity.
Qed.

Variables (hp : hyper F) (V D : nat) (X : list (list F)) (s : params F).
Hypothesis WS : well_shaped hp V D X s.

(** The new [g], before it is stored. *)
Let g' : list (list F) :=
  sadd (fdiv (c0 hp) (of_nat (nrow X)))
       (mzip fmul (mexp (Elogb s))
             (dot (mzip fdiv X (_auxsum s (theta_of s)))
                  (transpose (mexp (theta_of s))))).

Let h' : list (list F) :=
  tile (svadd (c0 hp) (sum_axis1 (mexp (theta_of s)))) (nrow X).

Lemma update_beta_g : g (_update_beta hp X s) = g'.
Proof. reflexivity. Qed.

Lemma update_beta_h : h (_update_beta hp X s) = h'.
Proof. reflexivity. Qed.

Lemma nrow_X : nrow X = V.
Proof. destruct WS as [_ _ _ _ [HX _] _ _ _ _ _]. exact HX. Qed.

Lemma shape_gdot :
  shape V (K hp)
        (dot (mzip fdiv X (_auxsum s (theta_of s)))
             (transpose (mexp (theta_of s)))).
Proof.
  destruct WS.
  apply (shape_dot (p := D)); auto.
  - apply (shape_xauxsum WS).
  - apply shape_transpose; auto. apply shape_mexp, (shape_theta WS).
Qed.

Lemma shape_g' : shape V (K hp) g'.
Proof.
  unfold g', sadd. apply shape_map. apply shape_mzip.
  - apply shape_mexp, WS.
  - apply shape_gdot.
Qed.

Lemma ent_g' (v k : nat) :
  v < V -> k < K hp -> ent g' v k = beta_g_at hp V D X s v k.
Proof.
  intros Hv Hk. unfold g', sadd, beta_g_at. destruct WS.
  rewrite (ent_map (n := V) (p := K hp)); auto.
  2:{ apply shape_mzip; [apply shape_mexp; auto | apply shape_gdot]. }
  rewrite nrow_X. f_equal.
  rewrite (ent_mzip (n := V) (p := K hp)); auto.
  2:{ apply shape_mexp; auto. }
  2:{ apply shape_gdot. }
  rewrite (ent_mexp (n := V) (p := K hp)) by auto. f_equal.
  rewrite (ent_dot (n := V) (p := D) (q := K hp)); auto.
  - apply Sum_ext. intros d Hd.
    rewrite (ent_xauxsum WS) by auto. f_equal.
    rewrite (ent_transpose (n := K hp) (p := D)); auto.
    + rewrite (ent_mexp (n := K hp) (p := D)); auto.
      * rewrite (ent_theta WS); auto.
      * apply (shape_theta WS).
    + apply shape_mexp, (shape_theta WS).
  - apply (shape_xauxsum WS).
  - apply shape_transpose; auto. apply shape_mexp, (shape_theta WS).
Qed.

Lemma length_hrow :
  length (svadd (c0 hp) (sum_axis1 (mexp (theta_of s)))) = K hp.
Proof.
  unfold svadd, sum_axis1, mexp. rewrite !length_map.
  apply (shape_theta WS).
Qed.

Lemma nth_hrow (k : nat) :
  k < K hp ->
  nth k (svadd (c0 hp) (sum_axis1 (mexp (theta_of s)))) f0
  = beta_h_at hp D s k.
Proof.
  intros Hk. unfold svadd, sum_axis1, beta_h_at.
  pose proof (shape_theta WS) as HT.
  rewrite (nth_map_in (fadd (c0 hp)) _ f0 f0).
  2:{ unfold mexp; rewrite !length_map. destruct HT; lia. }
  f_equal.
  rewrite (nth_map_in fsum _ [] f0).
  2:{ unfold mexp; rewrite length_map. destruct HT; lia. }
  unfold mexp. rewrite (nth_map_in vexp _ [] []) by (destruct HT; lia).
  rewrite (row_ent HT Hk). unfold vexp, Sum. rewrite map_map.
  f_equal. apply map_ext_in. intros d Hd. apply in_seq in Hd.
  rewrite (ent_theta WS) by lia. reflexivity.
Qed.

Lemma shape_h' : shape V (K hp) h'.
Proof.
  unfold h'. rewrite nrow_X, <- length_hrow. apply shape_tile.
Qed.

Lemma ent_h' (v k : nat) :
  v < V -> k < K hp -> ent h' v k = beta_h_at hp D s k.
Proof.
  intros Hv Hk. unfold h', ent, tile.
  rewrite nrow_X, nth_repeat_lt by auto.
  apply nth_hrow; auto.
Qed.

End Beta_update.

(** ** The alpha update *)

Section Alpha_update.
Context {F : Type} {SF : Scalar F}.
Variables (hp : hyper F) (V D : nat) (X : list (list F)) (s : params F).
Hypothesis WS : well_shaped hp V D X s.

Lemma length_sum_axis0_X : length (sum_axis0 X) = D.
Proof.
  destruct WS. unfold sum_axis0.
  rewrite length_map, length_seq. eapply shape_ncol; eauto.
Qed.


(** The array [Eb[:, :, np.newaxis] * np.exp(np.dot(l, u.T))], plane by
    plane. *)
Lemma alpha_tensor :
  bmul3 (Eb s) (mexp (dot (l s) (transpose (u s))))
  = map (fun v =>
           map (fun k =>
                  map (fmul (ent (Eb s) v k))
                      (nth k (mexp (dot (l s) (transpose (u s)))) []))
               (seq 0 (K hp)))
        (seq 0 V).
Proof.
  apply bmul3_tab.
  - apply WS.
  - unfold mexp. rewrite length_map. apply (shape_lu WS).
Qed.

Lemma length_alpha_plane (k : nat) (x : F) :
  k < K hp ->
  length (map (fmul x) (nth k (mexp (dot (l s) (transpose (u s)))) [])) = D.
Proof.
  intros Hk. rewrite length_map.
  apply (shape_row (n := K hp)); auto.
  apply shape_mexp, (shape_lu WS).
Qed.


Lemma length_alpha_den :
  length (sum_axis01 (bmul3 (Eb s) (mexp (dot (l s) (transpose (u s))))))
  = D.
Proof.
  rewrite alpha_tensor. destruct WS.
  apply length_sum_axis01_tab; auto.
  apply length_alpha_plane; lia.
Qed.


Lemma length_update_alpha : length (alpha (_update_alpha X s)) = D.
Proof.
  simpl. rewrite length_zipw, !length_map.
  rewrite length_sum_axis0_X, length_alpha_den. lia.
Qed.


End Alpha_update.

(** ** The l update *)

Section Row_writes.
Context {F : Type} {SF : Scalar F}.

Lemma length_set_row (k : nat) (r : list F) (A : list (list F)) :
  length (set_row k r A) = length A.
Proof.
  revert k; induction A as [|a A IH]; intros [|k]; simpl; auto.
Qed.

Lemma set_row_app (pre rest : list (list F)) (r0 r : list F) :
  set_row (length pre) r (pre ++ r0 :: rest) = pre ++ r :: rest.
Proof.
  induction pre as [|a pre IH]; simpl; [reflexivity|].
  rewrite IH. reflexivity.
Qed.

(** Writing the rows [a], [a+1], ... of an array in turn: the rows already
    there are replaced one after the other, whatever they held. *)
Lemma fold_set_row (f : nat -> list F) (len a : nat)
  (pre rest : list (list F)) :
  length pre = a -> length rest = len ->
  fold_left (fun lt k => set_row k (f k) lt) (seq a len) (pre ++ rest)
  = pre ++ map f (seq a len).
Proof.
  revert a pre rest.
  induction len as [|len IH]; intros a pre rest Hpre Hrest.
  - destruct rest; [reflexivity | discriminate].
  - destruct rest as [|r0 rest]; [discriminate|].
    subst a. simpl. rewrite set_row_app.
    replace (pre ++ f (length pre) :: rest)
      with ((pre ++ [f (length pre)]) ++ rest)
      by (rewrite <- app_assoc; reflexivity).
    rewrite IH.
    + rewrite <- app_assoc. reflexivity.
    + rewrite length_app; simpl; lia.
    + simpl in Hrest; lia.
Qed.

Lemma fold_set_row_all (f : nat -> list F) (n : nat) (A0 : list (list F)) :
  length A0 = n ->
  fold_left (fun lt k => set_row k (f k) lt) (seq 0 n) A0 = map f (seq 0 n).
Proof.
  intros HA. apply (fold_set_row f [] A0); auto.
Qed.

Lemma length_zeros (n p : nat) : length (zeros n p) = n.
Proof. apply repeat_length. Qed.

End Row_writes.

Section Ql_update.
Context {F : Type} {SF : Scalar F}.
Variables (hp : hyper F) (V D : nat) (X : list (list F)) (s : params F).
Hypothesis WS : well_shaped hp V D X s.

(** The array [grad] of the index [k] before its last reassignment. *)
Let Gk (k : nat) : list (list F) :=
  mzip fsub
       (mzip fmul (mzip fdiv X (_auxsum s (theta_of s)))
             (outer (vexp (col k (Elogb s))) (vexp (row k (theta_of s)))))
       (outer (col k (Eb s)) (vexp (row k (theta_of s)))).

Lemma ql_row_unfold (k : nat) :
  ql_row hp X s k
  = zipw fadd (row k (l s))
         (svmul (step_size hp)
                (sum_axis01 (tsubv (bmul3 (Gk k) (u s)) (row k (l s))))).
Proof. reflexivity. Qed.

Lemma length_theta_row (k : nat) :
  k < K hp -> length (vexp (row k (theta_of s))) = D.
Proof.
  intros Hk. unfold vexp, row. rewrite length_map.
  apply (shape_row (shape_theta WS) Hk).
Qed.

Lemma nth_theta_row (k d : nat) :
  k < K hp -> d < D ->
  nth d (vexp (row k (theta_of s))) f0 = fexp (theta_at hp s k d).
Proof.
  intros Hk Hd. unfold vexp, row.
  rewrite (nth_map_in fexp _ f0 f0)
    by (rewrite (shape_row (shape_theta WS) Hk); lia).
  f_equal. apply (ent_theta WS); auto.
Qed.

Lemma shape_outer_Elogb (k : nat) :
  k < K hp ->
  shape V D (outer (vexp (col k (Elogb s))) (vexp (row k (theta_of s)))).
Proof.
  intros Hk.
  replace V with (length (vexp (col k (Elogb s)))).
  - rewrite <- (length_theta_row Hk) at 1. apply shape_outer.
  - unfold vexp. rewrite length_map. eapply length_col. apply WS.
Qed.

Lemma shape_outer_Eb (k : nat) :
  k < K hp ->
  shape V D (outer (col k (Eb s)) (vexp (row k (theta_of s)))).
Proof.
  intros Hk.
  replace V with (length (col k (Eb s))).
  - rewrite <- (length_theta_row Hk) at 1. apply shape_outer.
  - eapply length_col. apply WS.
Qed.

Lemma shape_Gk (k : nat) : k < K hp -> shape V D (Gk k).
Proof.
  intros Hk. unfold Gk.
  apply shape_mzip; [apply shape_mzip|].
  - apply (shape_xauxsum WS).
  - apply shape_outer_Elogb; auto.
  - apply shape_outer_Eb; auto.
Qed.

Lemma ent_Gk (k v d : nat) :
  k < K hp -> v < V -> d < D -> ent (Gk k) v d = ql_term hp X s k v d.
Proof.
  intros Hk Hv Hd. unfold Gk, ql_term. destruct WS.
  rewrite (ent_mzip (n := V) (p := D)); auto.
  2:{ apply shape_mzip;
        [apply (shape_xauxsum WS) | apply shape_outer_Elogb; auto]. }
  2:{ apply shape_outer_Eb; auto. }
  rewrite (ent_mzip (n := V) (p := D)); auto.
  2:{ apply (shape_xauxsum WS). }
  2:{ apply shape_outer_Elogb; auto. }
  rewrite (ent_xauxsum WS) by auto.
  rewrite !ent_outer.
  - rewrite !nth_theta_row by auto.
    unfold vexp at 1.
    rewrite (nth_map_in fexp _ f0 f0)
      by (rewrite (length_col k ws_Elogb0); lia).
    rewrite (nth_col k ws_Elogb0 Hv), (nth_col k ws_Eb0 Hv).
    reflexivity.
  - rewrite (length_col k ws_Eb0); lia.
  - rewrite length_theta_row; auto.
  - unfold vexp. rewrite length_map, (length_col k ws_Elogb0); lia.
  - rewrite length_theta_row; auto.
Qed.

(** The array summed by the last reassignment of [grad], plane by plane. *)
Lemma ql_tensor (k : nat) :
  k < K hp ->
  tsubv (bmul3 (Gk k) (u s)) (row k (l s))
  = map (fun v =>
           map (fun d =>
                  zipw fsub (map (fmul (ent (Gk k) v d)) (nth d (u s) []))
                       (row k (l s)))
               (seq 0 D))
        (seq 0 V).
Proof.
  intros Hk.
  rewrite (@bmul3_tab _ _ V D (Gk k) (u s) (shape_Gk Hk)) by apply WS.
  apply tsubv_tab.
Qed.

Lemma length_ql_plane (k d : nat) (x : F) :
  k < K hp -> d < D ->
  length (zipw fsub (map (fmul x) (nth d (u s) [])) (row k (l s))) = m hp.
Proof.
  intros Hk Hd. destruct WS.
  rewrite length_zipw, length_map. unfold row.
  rewrite (shape_row ws_u0 Hd), (shape_row ws_l0 Hk). lia.
Qed.

Lemma nth_ql_plane (k d j : nat) (x : F) :
  k < K hp -> d < D -> j < m hp ->
  nth j (zipw fsub (map (fmul x) (nth d (u s) [])) (row k (l s))) f0
  = fsub (fmul x (ent (u s) d j)) (ent (l s) k j).
Proof.
  intros Hk Hd Hj. destruct WS.
  rewrite (nth_zipw fsub _ _ f0 f0).
  - rewrite (nth_map_in (fmul x) _ f0 f0)
      by (rewrite (shape_row ws_u0 Hd); lia).
    reflexivity.
  - rewrite length_map, (shape_row ws_u0 Hd); lia.
  - unfold row. rewrite (shape_row ws_l0 Hk); lia.
Qed.

Lemma length_ql_grad (k : nat) :
  k < K hp ->
  length (sum_axis01 (tsubv (bmul3 (Gk k) (u s)) (row k (l s)))) = m hp.
Proof.
  intros Hk. rewrite ql_tensor by auto. destruct WS.
  apply length_sum_axis01_tab; auto.
  apply length_ql_plane; auto.
Qed.

Lemma nth_ql_grad (k j : nat) :
  k < K hp -> j < m hp ->
  nth j (sum_axis01 (tsubv (bmul3 (Gk k) (u s)) (row k (l s)))) f0
  = ql_grad_at hp V D X s k j.
Proof.
  intros Hk Hj. rewrite ql_tensor by auto. destruct WS.
  rewrite (nth_sum_axis01_tab (q := m hp)); auto.
  - apply Sum2_ext. intros v d Hv Hd.
    rewrite nth_ql_plane by auto.
    rewrite ent_Gk by auto. reflexivity.
  - apply length_ql_plane; auto.
Qed.

Lemma length_ql_row (k : nat) : k < K hp -> length (ql_row hp X s k) = m hp.
Proof.
  intros Hk. rewrite ql_row_unfold, length_zipw.
  unfold svmul. rewrite length_map, length_ql_grad by auto.
  unfold row. rewrite (shape_row (ws_l WS) Hk). lia.
Qed.

Lemma nth_ql_row (k j : nat) :
  k < K hp -> j < m hp ->
  nth j (ql_row hp X s k) f0
  = fadd (ent (l s) k j)
         (fmul (step_size hp) (ql_grad_at hp V D X s k j)).
Proof.
  intros Hk Hj. rewrite ql_row_unfold.
  rewrite (nth_zipw fadd _ _ f0 f0).
  - unfold svmul. rewrite (nth_map_in (fmul (step_size hp)) _ f0 f0)
      by (rewrite length_ql_grad; auto).
    rewrite nth_ql_grad by auto. reflexivity.
  - unfold row. rewrite (shape_row (ws_l WS) Hk); lia.
  - unfold svmul. rewrite length_map, length_ql_grad; auto.
Qed.

(** The rows of the new [l] are all computed from the state the step
    started in. *)
Lemma ql_step_rows :
  l (ql_step hp X s) = map (ql_row hp X s) (seq 0 (K hp)).
Proof.
  simpl. apply fold_set_row_all.
  rewrite length_zeros. apply (ws_l WS).
Qed.

Lemma shape_ql_step : shape (K hp) (m hp) (l (ql_step hp X s)).
Proof.
  rewrite ql_step_rows. split.
  - rewrite length_map, length_seq; auto.
  - rewrite Forall_map, Forall_forall. intros k Hk.
    apply in_seq in Hk. apply length_ql_row; lia.
Qed.

Lemma ent_ql_step (k j : nat) :
  k < K hp -> j < m hp ->
  ent (l (ql_step hp X s)) k j
  = fadd (ent (l s) k j)
         (fmul (step_size hp) (ql_grad_at hp V D X s k j)).
Proof.
  intros Hk Hj. unfold ent. rewrite ql_step_rows.
  rewrite nth_map_seq by auto. apply nth_ql_row; auto.
Qed.

Lemma well_shaped_ql_step : well_shaped hp V D X (ql_step hp X s).
Proof.
  destruct WS. constructor; auto.
  apply shape_ql_step.
Qed.

End Ql_update.

(** ** The expectations follow (g, h) *)

Section Consistency.
Context {F : Type} {SF : Scalar F} {SP : Special F}.

Lemma same_beta_refl (s : params F) : same_beta s s.
Proof. repeat split. Qed.

Lemma same_beta_trans (s1 s2 s3 : params F) :
  same_beta s1 s2 -> same_beta s2 s3 -> same_beta s1 s3.
Proof.
  intros (A1 & A2 & A3 & A4) (B1 & B2 & B3 & B4).
  repeat split; congruence.
Qed.

Lemma same_beta_consistent (s s' : params F) :
  same_beta s s' -> consistent s -> consistent s'.
Proof.
  intros (A1 & A2 & A3 & A4) [C1 C2]. unfold consistent.
  rewrite A1, A2, A3, A4. split; assumption.
Qed.

Lemma same_beta_iter (f : params F -> params F) (n : nat) (s : params F) :
  (forall t, same_beta t (f t)) -> same_beta s (Nat.iter n f s).
Proof.
  intros Hf. induction n as [|n IH]; simpl.
  - apply same_beta_refl.
  - eapply same_beta_trans; [exact IH | apply Hf].
Qed.

Lemma same_beta_update_alpha (X : list (list F)) (s : params F) :
  same_beta s (_update_alpha X s).
Proof. repeat split. Qed.

Lemma same_beta_update_ql (hp : hyper F) (X : list (list F)) (s : params F) :
  same_beta s (_update_ql hp X s).
Proof. apply same_beta_iter. intros t. repeat split. Qed.

Lemma same_beta_update_qu (hp : hyper F) (X : list (list F)) (s : params F) :
  same_beta s (_update_qu hp X s).
Proof. apply same_beta_iter. intros t. repeat split. Qed.

Lemma consistent_update_beta (hp : hyper F) (X : list (list F))
  (s : params F) :
  consistent (_update_beta hp X s).
Proof. split; reflexivity. Qed.

Lemma consistent_cycle (hp : hyper F) (X : list (list F)) (ub : bool)
  (s : params F) :
  consistent s -> consistent (cycle hp X ub s).
Proof.
  intros C. unfold cycle. destruct ub.
  - apply consistent_update_beta.
  - eapply same_beta_consistent; [|exact C].
    eapply same_beta_trans; [apply same_beta_update_alpha|].
    eapply same_beta_trans; [apply same_beta_update_ql|].
    apply same_beta_update_qu.
Qed.

Context {SO : Ordered F}.

Lemma consistent_update_from (hp : hyper F) (X : list (list F)) (ub : bool)
  (n : nat) (e : F) (s : params F) :
  consistent s -> consistent (fst (update_from hp X ub n e s)).
Proof.
  revert e s. induction n as [|n IH]; intros e s C; simpl; auto.
  destruct (converged hp e (_bound hp X (cycle hp X ub s))); simpl.
  - apply consistent_cycle; auto.
  - specialize (IH (_bound hp X (cycle hp X ub s)) (cycle hp X ub s)
                   (consistent_cycle hp X ub C)).
    destruct (update_from hp X ub n (_bound hp X (cycle hp X ub s))
                          (cycle hp X ub s)) as [r c].
    exact IH.
Qed.

End Consistency.

(** ** The loop *)

Section Loop.
Context {F : Type} {SF : Scalar F} {SP : Special F} {SO : Ordered F}.
Variables (hp : hyper F) (X : list (list F)) (ub : bool) (s0 : params F).

(** The loop resumed after [t0] passes: it makes [c] more passes, none of
    the tests before the last one succeeds, and it stops short of the passes
    left only on a test that succeeds. *)
Lemma update_from_passes (n t0 : nat) :
  let '(r, c) :=
    update_from hp X ub n (elbo_before hp X ub s0 t0)
                (state_after hp X ub s0 t0) in
  r = state_after hp X ub s0 (t0 + c) /\
  c <= n /\
  (1 <= n -> 1 <= c) /\
  (forall t, t0 <= t -> S t < t0 + c -> stops_in_pass hp X ub s0 t = false) /\
  (c < n -> stops_in_pass hp X ub s0 (t0 + c - 1) = true).
Proof.
  revert t0. induction n as [|n IH]; intros t0; simpl.
  - rewrite Nat.add_0_r.
    split; [reflexivity|]. split; [lia|]. split; [lia|].
    split; [intros t H1 H2; lia | lia].
  - change (cycle hp X ub (state_after hp X ub s0 t0))
      with (state_after hp X ub s0 (S t0)).
    destruct (converged hp (elbo_before hp X ub s0 t0)
                        (_bound hp X (state_after hp X ub s0 (S t0))))
      eqn:Ec.
    + replace (t0 + 1) with (S t0) by lia.
      split; [reflexivity|]. split; [lia|]. split; [lia|].
      split; [intros t H1 H2; lia|].
      intros _. replace (S t0 - 1) with t0 by lia. exact Ec.
    + specialize (IH (S t0)).
      change (elbo_before hp X ub s0 (S t0))
        with (_bound hp X (state_after hp X ub s0 (S t0))) in IH.
      destruct (update_from hp X ub n
                            (_bound hp X (state_after hp X ub s0 (S t0)))
                            (state_after hp X ub s0 (S t0))) as [r c].
      destruct IH as (Hr & Hc & Hc1 & Hno & Hstop).
      replace (t0 + S c) with (S t0 + c) by lia.
      split; [exact Hr|]. split; [lia|]. split; [lia|]. split.
      * intros t H1 H2.
        destruct (Nat.eq_dec t t0) as [->|Hne]; [exact Ec|].
        apply Hno; lia.
      * intros Hlt. apply Hstop. lia.
Qed.

End Loop.

(** In binary64 the first test of the loop fails whatever the bound and the
    tolerance are: subtracting minus infinity gives plus infinity or a NaN,
    dividing that by plus infinity gives a NaN, and no NaN is below
    anything. *)
Lemma b64_first_test (x tol : SpecFloat.spec_float) :
  SpecFloat.SFltb
    (SpecFloat.SFdiv B64.prec B64.emax
       (SpecFloat.SFsub B64.prec B64.emax x (SpecFloat.S754_infinity true))
       (SpecFloat.SFabs (SpecFloat.S754_infinity true)))
    tol = false.
Proof.
  destruct x as [sx|sx| |sx mx ex]; try destruct sx; reflexivity.
Qed.

(** ** The instance: [fit] and [transform] *)

Section Row_counts.
Context {F : Type} {SF : Scalar F} {SP : Special F}.

Lemma rows_ok_same_beta (X : list (list F)) (s s' : params F) :
  same_beta s s' -> rows_ok X s -> rows_ok X s'.
Proof.
  intros (_ & _ & A3 & A4) [R1 R2]. unfold rows_ok.
  rewrite A3, A4. split; assumption.
Qed.

Lemma rows_ok_update_beta (hp : hyper F) (X : list (list F)) (s : params F) :
  rows_ok X s -> rows_ok X (_update_beta hp X s).
Proof.
  intros [R1 R2]. unfold rows_ok, nrow in *. simpl.
  unfold _auxsum, mzip, sadd, mlog, tile, dot, mexp, nrow.
  repeat (rewrite ?length_zipw, ?length_map, ?repeat_length).
  rewrite R2. split; lia.
Qed.

Lemma rows_ok_cycle (hp : hyper F) (X : list (list F)) (ub : bool)
  (s : params F) :
  rows_ok X s -> rows_ok X (cycle hp X ub s).
Proof.
  intros R. unfold cycle.
  assert (R' : rows_ok X (_update_qu hp X (_update_ql hp X (_update_alpha X s)))).
  { eapply rows_ok_same_beta; [|exact R].
    eapply same_beta_trans; [apply same_beta_update_alpha|].
    eapply same_beta_trans; [apply same_beta_update_ql|].
    apply same_beta_update_qu. }
  destruct ub; [apply rows_ok_update_beta|]; exact R'.
Qed.

Context {SO : Ordered F}.

Lemma rows_ok_update_from (hp : hyper F) (X : list (list F)) (ub : bool)
  (n : nat) (e : F) (s : params F) :
  rows_ok X s -> rows_ok X (fst (update_from hp X ub n e s)).
Proof.
  revert e s. induction n as [|n IH]; intros e s R; simpl; auto.
  destruct (converged hp e (_bound hp X (cycle hp X ub s))); simpl.
  - apply rows_ok_cycle; auto.
  - specialize (IH (_bound hp X (cycle hp X ub s)) (cycle hp X ub s)
                   (rows_ok_cycle hp ub R)).
    destruct (update_from hp X ub n (_bound hp X (cycle hp X ub s))
                          (cycle hp X ub s)) as [r c].
    exact IH.
Qed.

End Row_counts.

Section Instance.
Context {F G : Type} {SF : Scalar F} {SP : Special F} {SO : Ordered F}.
Variable rand_gamma : F -> F -> G -> F * G.
Variable rand_mvn : list F -> list (list F) -> G -> list F * G.
Variable rand_random : G -> F * G.

Lemma length_draws {A : Type} (n : nat) (d : G -> A * G) (r : G) :
  length (fst (draws n d r)) = n.
Proof.
  revert r. induction n as [|n IH]; intros r; simpl; auto.
  destruct (d r) as [x r1]. specialize (IH r1).
  destruct (draws n d r1) as [xs r2]. simpl in *. lia.
Qed.

(** [fit] returns normally, and leaves an [Eb] with one row per row of
    its input. *)
Lemma fit_leaves_Eb (X0 : list (list F)) (w0 : world F G) :
  exists w1 eb,
    fit rand_gamma rand_mvn rand_random X0 w0 = (inl tt, w1) /\
    o_Eb (self w1) = Some eb /\ nrow eb = nrow X0.
Proof.
  unfold fit, bind, _init_qbeta.
  pose proof (length_draws (nrow X0)
                (draws (K (o_hp (self w0)))
                   (rand_gamma (smoothness (o_hp (self w0)))
                      (fdiv (of_nat 1) (smoothness (o_hp (self w0))))))
                (np_random w0)) as Lg.
  destruct (draws (nrow X0) _ (np_random w0)) as [g1 r1].
  pose proof (length_draws (nrow X0)
                (draws (K (o_hp (self w0)))
                   (rand_gamma (smoothness (o_hp (self w0)))
                      (fdiv (of_nat 1) (smoothness (o_hp (self w0))))))
                r1) as Lh.
  destruct (draws (nrow X0) _ r1) as [h1 r2].
  simpl in Lg, Lh. simpl.
  unfold _init_ql. simpl.
  destruct (draws (K (o_hp (self w0))) _ r2) as [z r3].
  destruct (rand_random r3) as [x r4]. simpl.
  unfold _init_qu. simpl.
  destruct (draws (ncol X0) _ r4) as [u1 r5]. simpl.
  assert (R0 : forall a l0 u0,
             rows_ok X0 (Params a l0 u0 g1 h1 (mzip fdiv g1 h1)
                                (mzip fsub (map (map psi) g1) (mlog h1)))).
  { intros a l0 u0. unfold rows_ok, nrow, mzip, mlog. simpl.
    rewrite !length_zipw, !length_map. unfold nrow in *. lia. }
  unfold update_self. simpl.
  destruct (max_iters (o_hp (self w0))) eqn:Emax.
  - simpl. eexists. eexists. split; [reflexivity|]. simpl.
    split; [reflexivity|]. apply (R0 [] [] []).
  - unfold _update. rewrite Emax.
    match goal with
    | |- context [update_from ?hp ?X ?ub ?n ?e ?s] =>
        pose proof (@rows_ok_update_from F SF SP SO hp X ub n e s (R0 _ _ _))
          as R; destruct (update_from hp X ub n e s) as [p c]
    end.
    simpl. eexists. eexists. split; [reflexivity|]. simpl.
    split; [reflexivity|]. apply R.
Qed.

End Instance.

(** ** The gradient of the l update over the reals *)

Section Real_gradient.
Local Open Scope R_scope.

Lemma fold_Rplus_acc (xs : list R) (a b : R) :
  fold_left Rplus xs (a + b) = fold_left Rplus xs a + b.
Proof.
  revert a. induction xs as [|x xs IH]; intros a; simpl; [reflexivity|].
  replace (a + b + x) with (a + x + b) by ring. apply IH.
Qed.

Lemma fold_Rplus_shift (xs : list R) (c a : R) :
  fold_left Rplus (map (fun x => x - c) xs) a
  = fold_left Rplus xs a - INR (length xs) * c.
Proof.
  revert a. induction xs as [|x xs IH]; intros a.
  - simpl. ring.
  - cbn [map fold_left length]. rewrite S_INR.
    replace (a + (x - c)) with (a + x + - c) by ring.
    rewrite fold_Rplus_acc, IH. ring.
Qed.

Lemma map_flat_map_seq (k : R -> R) (f : nat -> nat -> R) (p : nat)
  (js : list nat) :
  flat_map (fun i => map (fun j => k (f i j)) (seq 0 p)) js
  = map k (flat_map (fun i => map (f i) (seq 0 p)) js).
Proof.
  induction js as [|i js IH]; simpl; [reflexivity|].
  rewrite map_app, map_map, IH. reflexivity.
Qed.

Lemma length_flat_map_seq (f : nat -> nat -> R) (p : nat) (js : list nat) :
  length (flat_map (fun i => map (f i) (seq 0 p)) js) = (length js * p)%nat.
Proof.
  induction js as [|i js IH]; simpl; [reflexivity|].
  rewrite length_app, length_map, length_seq, IH. reflexivity.
Qed.

Lemma Sum2_shift (n p : nat) (f : nat -> nat -> R) (c : R) :
  Sum2 n p (fun i j => f i j - c) = Sum2 n p f - INR (n * p) * c.
Proof.
  unfold Sum2, fsum.
  rewrite (map_flat_map_seq (fun x => x - c) f p (seq 0 n)).
  cbn [fadd f0 Scalar_R].
  rewrite fold_Rplus_shift, length_flat_map_seq, length_seq. reflexivity.
Qed.

(** Over the reals the gradient the code computes is the gradient in the
    words of the specification with [l_k] subtracted [V * D] times instead
    of once. *)
Lemma ql_grad_at_real (hp : hyper R) (V D : nat) (X : list (list R))
  (s : params R) (k j : nat) :
  ql_grad_at hp V D X s k j
  = ql_grad_spec_at hp V D X s k j - (INR (V * D) - 1) * ent (l s) k j.
Proof.
  unfold ql_grad_at, ql_grad_spec_at. cbn [fsub fmul Scalar_R].
  rewrite (Sum2_shift V D
             (fun v d => ql_term hp X s k v d * ent (u s) d j)
             (ent (l s) k j)).
  ring.
Qed.

End Real_gradient.

(** ** The small inputs, worked out *)

Section Worked.
Local Open Scope R_scope.

Lemma ws_s1 : well_shaped (Sample.hp 1) 1 1 Sample.X1 Sample.s1.
Proof.
  constructor; simpl; try lia; split; try reflexivity; repeat constructor.
Qed.

Lemma ws_s2 : well_shaped (Sample.hp 1) 1 2 Sample.X2 Sample.s2.
Proof.
  constructor; simpl; try lia; split; try reflexivity; repeat constructor.
Qed.

Lemma ws_s3 (a b : R) :
  well_shaped (Sample.hp 2) 1 1 Sample.X3 (Sample.s3 a b).
Proof.
  constructor; simpl; try lia; split; try reflexivity; repeat constructor.
Qed.

Lemma singleton_nth (xs : list R) :
  length xs = 1%nat -> xs = [nth 0 xs 0].
Proof.
  destruct xs as [|x [|y xs]]; simpl; intros E; try discriminate.
  reflexivity.
Qed.

Lemma exp_sum_neq_0 (a b : R) : exp a + exp b <> 0.
Proof. pose proof (exp_pos a). pose proof (exp_pos b). lra. Qed.

Lemma ql_row3_0 (a b : R) :
  ql_row (Sample.hp 2) Sample.X3 (Sample.s3 a b) 0 = [Sample.new_l3 a b a].
Proof.
  rewrite (singleton_nth _ (length_ql_row (ws_s3 a b) (k := 0)
                            ltac:(simpl; lia))).
  f_equal.
  assert (H := @nth_ql_row R Scalar_R _ 1 1 _ _ (ws_s3 a b) 0%nat 0%nat
                ltac:(simpl; lia) ltac:(simpl; lia)).
  cbn [f0 Scalar_R] in H. rewrite H.
  unfold ql_grad_at, Sum2, fsum, ql_term, auxsum_at, theta_at, lu_at, Sum,
    fsum, ent, Sample.new_l3.
  simpl. rewrite exp_0.
  replace (0 + (0 + a * 1)) with a by ring.
  replace (0 + (0 + b * 1)) with b by ring.
  field. apply exp_sum_neq_0.
Qed.

Lemma ql_row3_1 (a b : R) :
  ql_row (Sample.hp 2) Sample.X3 (Sample.s3 a b) 1 = [Sample.new_l3 a b b].
Proof.
  rewrite (singleton_nth _ (length_ql_row (ws_s3 a b) (k := 1)
                            ltac:(simpl; lia))).
  f_equal.
  assert (H := @nth_ql_row R Scalar_R _ 1 1 _ _ (ws_s3 a b) 1%nat 0%nat
                ltac:(simpl; lia) ltac:(simpl; lia)).
  cbn [f0 Scalar_R] in H. rewrite H.
  unfold ql_grad_at, Sum2, fsum, ql_term, auxsum_at, theta_at, lu_at, Sum,
    fsum, ent, Sample.new_l3.
  simpl. rewrite exp_0.
  replace (0 + (0 + a * 1)) with a by ring.
  replace (0 + (0 + b * 1)) with b by ring.
  field. apply exp_sum_neq_0.
Qed.

(** The step of the code writes both rows from the old rows, *)
Lemma ql_step3 (a b : R) :
  l (ql_step (Sample.hp 2) Sample.X3 (Sample.s3 a b))
  = [[Sample.new_l3 a b a]; [Sample.new_l3 a b b]].
Proof.
  rewrite (ql_step_rows (ws_s3 a b)).
  cbn [K Sample.hp seq map]. rewrite ql_row3_0, ql_row3_1. reflexivity.
Qed.

(** while the sequential step writes the second row from the new first
    row. *)
Lemma ql_step_sequential3 (a b : R) :
  l (ql_step_sequential (Sample.hp 2) Sample.X3 (Sample.s3 a b))
  = [[Sample.new_l3 a b a]; [Sample.new_l3 (Sample.new_l3 a b a) b b]].
Proof.
  unfold ql_step_sequential. cbn [K Sample.hp seq fold_left].
  rewrite ql_row3_0.
  change (Params (alpha (Sample.s3 a b))
                 (set_row 0 [Sample.new_l3 a b a] (l (Sample.s3 a b)))
                 (u (Sample.s3 a b)) (g (Sample.s3 a b)) (h (Sample.s3 a b))
                 (Eb (Sample.s3 a b)) (Elogb (Sample.s3 a b)))
    with (Sample.s3 (Sample.new_l3 a b a) b).
  rewrite ql_row3_1. reflexivity.
Qed.

Lemma new_l3_0 : Sample.new_l3 0 0 0 = 1.
Proof. unfold Sample.new_l3. rewrite exp_0. field. Qed.

Lemma new_l3_1 : Sample.new_l3 1 0 0 <> 1.
Proof.
  unfold Sample.new_l3. rewrite exp_0. intros E.
  pose proof (exp_ineq1 1 ltac:(lra)) as H1.
  assert (E2 : 2 / (exp 1 + 1) = 1) by lra.
  apply (f_equal (fun x => x * (exp 1 + 1))) in E2.
  unfold Rdiv in E2. rewrite Rmult_assoc, Rinv_l in E2; lra.
Qed.

Lemma ws_sf :
  well_shaped Sample.hpf 1 1 Sample.Xf Sample.sf.
Proof.
  constructor; simpl; try lia; split; try reflexivity; repeat constructor.
Qed.

(** On [s2] the code moves the entry of [l] from 1 to -1, where the
    gradient in the words of the specification would move it to 0. *)
Lemma ql_step2 :
  ent (l (ql_step (Sample.hp 1) Sample.X2 Sample.s2)) 0 0 = -1.
Proof.
  assert (H := @ent_ql_step R Scalar_R _ 1 2 _ _ ws_s2 0%nat 0%nat
                ltac:(simpl; lia) ltac:(simpl; lia)).
  rewrite H.
  unfold ql_grad_at, Sum2, fsum, ent. simpl. lra.
Qed.

Lemma ql_spec2 :
  fadd (ent (l Sample.s2) 0 0)
       (fmul (step_size (Sample.hp 1))
             (ql_grad_spec_at (Sample.hp 1) 1 2 Sample.X2 Sample.s2 0 0))
  = 0.
Proof.
  unfold ql_grad_spec_at, Sum2, fsum, ent. simpl. lra.
Qed.

End Worked.

(** ** Binary64: what rounding keeps *)

Section Binary64_rounding.
Local Open Scope Z_scope.

Lemma digits2_size (p : positive) : SpecFloat.digits2_pos p = Pos.size p.
Proof. induction p; simpl; congruence. Qed.

Lemma iter_pos_iter {A : Type} (f : A -> A) (p : positive) (x : A) :
  SpecFloat.iter_pos f p x = Pos.iter f x p.
Proof.
  revert x. induction p; intros x; simpl.
  - rewrite !IHp. rewrite <- !Pos.iter_swap. reflexivity.
  - rewrite !IHp. reflexivity.
  - reflexivity.
Qed.

Lemma shr_1_m (r : SpecFloat.shr_record) :
  0 <= SpecFloat.shr_m r ->
  SpecFloat.shr_m (SpecFloat.shr_1 r) = Z.div2 (SpecFloat.shr_m r).
Proof.
  destruct r as [m r s]. simpl. intros H.
  destruct m as [|p|p]; [reflexivity| |lia].
  destruct p; reflexivity.
Qed.

(** Shifting a mantissa right by [p] places divides it by [2^p]. *)
Lemma shr_iter_m (p : positive) (r : SpecFloat.shr_record) :
  0 <= SpecFloat.shr_m r ->
  SpecFloat.shr_m (SpecFloat.iter_pos SpecFloat.shr_1 p r)
  = SpecFloat.shr_m r / 2 ^ Z.pos p.
Proof.
  intros H. rewrite iter_pos_iter.
  rewrite <- Z.shiftr_div_pow2 by lia.
  change (Z.shiftr (SpecFloat.shr_m r) (Z.pos p))
    with (Pos.iter Z.div2 (SpecFloat.shr_m r) p).
  induction p as [|p IH] using Pos.peano_ind.
  - simpl. apply shr_1_m, H.
  - rewrite !Pos.iter_succ. rewrite <- IH.
    apply shr_1_m. rewrite IH.
    change (Pos.iter Z.div2 (SpecFloat.shr_m r) p)
      with (Z.shiftr (SpecFloat.shr_m r) (Z.pos p)).
    apply Z.shiftr_nonneg, H.
Qed.

Lemma pow_digits (m : positive) :
  2 ^ (Z.pos (SpecFloat.digits2_pos m) - 1) <= Z.pos m
  /\ Z.pos m < 2 ^ Z.pos (SpecFloat.digits2_pos m).
Proof.
  rewrite digits2_size. split.
  - pose proof (Pos.size_le m) as H.
    apply Pos2Z.pos_le_pos in H. rewrite Pos2Z.inj_pow in H.
    replace (Z.pos (Pos.size m)) with (Z.succ (Z.pos (Pos.size m) - 1)) in H
      by lia.
    rewrite Z.pow_succ_r in H by lia.
    change (Z.pos m~0) with (2 * Z.pos m) in H. lia.
  - pose proof (Pos.size_gt m) as H.
    apply Pos2Z.pos_lt_pos in H. rewrite Pos2Z.inj_pow in H. exact H.
Qed.

Lemma digits_mono (a b : positive) :
  (a <= b)%positive ->
  Z.pos (SpecFloat.digits2_pos a) <= Z.pos (SpecFloat.digits2_pos b).
Proof.
  intros H. apply Pos2Z.pos_le_pos in H.
  destruct (pow_digits a) as [La _]. destruct (pow_digits b) as [_ Ub].
  assert (L : 2 ^ (Z.pos (SpecFloat.digits2_pos a) - 1)
              < 2 ^ Z.pos (SpecFloat.digits2_pos b)) by lia.
  apply Z.pow_lt_mono_r_iff in L; lia.
Qed.

Lemma digits_iter_xO (m d : positive) :
  Z.pos (SpecFloat.digits2_pos (Pos.iter xO m d))
  = Z.pos (SpecFloat.digits2_pos m) + Z.pos d.
Proof.
  induction d as [|d IH] using Pos.peano_ind.
  - simpl. lia.
  - rewrite Pos.iter_succ. simpl SpecFloat.digits2_pos.
    rewrite Pos2Z.inj_succ, IH. lia.
Qed.

Lemma fexp_ge_emin (e : Z) :
  SpecFloat.emin B64.prec B64.emax <= SpecFloat.fexp B64.prec B64.emax e.
Proof. unfold SpecFloat.fexp. lia. Qed.

(** The shift that brings a mantissa to the format leaves an exponent that
    is not below the least one. *)
Lemma shr_fexp_emin (m e : Z) (l : SpecFloat.location) :
  SpecFloat.emin B64.prec B64.emax
  <= snd (SpecFloat.shr_fexp B64.prec B64.emax m e l).
Proof.
  unfold SpecFloat.shr_fexp, SpecFloat.shr.
  pose proof (fexp_ge_emin (SpecFloat.Zdigits2 m + e)) as H.
  destruct (SpecFloat.fexp B64.prec B64.emax (SpecFloat.Zdigits2 m + e) - e)
    eqn:E; simpl; lia.
Qed.

(** It leaves a positive mantissa positive, unless the number is below the
    least positive one. *)
Lemma shr_fexp_pos (m : positive) (e : Z) (l : SpecFloat.location) :
  SpecFloat.emin B64.prec B64.emax < Z.pos (SpecFloat.digits2_pos m) + e ->
  0 < SpecFloat.shr_m
        (fst (SpecFloat.shr_fexp B64.prec B64.emax (Z.pos m) e l)).
Proof.
  intros H. unfold SpecFloat.shr_fexp, SpecFloat.shr.
  assert (M : SpecFloat.shr_m (SpecFloat.shr_record_of_loc (Z.pos m) l)
              = Z.pos m)
    by (destruct l as [|[| |]]; reflexivity).
  simpl SpecFloat.Zdigits2.
  destruct (SpecFloat.fexp B64.prec B64.emax
              (Z.pos (SpecFloat.digits2_pos m) + e) - e) as [|p|p] eqn:E;
    simpl fst; try (rewrite M; lia).
  rewrite shr_iter_m by (rewrite M; lia). rewrite M.
  apply Z.div_str_pos. split; [apply Z.pow_pos_nonneg; lia|].
  destruct (pow_digits m) as [L _].
  assert (P : Z.pos p <= Z.pos (SpecFloat.digits2_pos m) - 1).
  { unfold SpecFloat.fexp, SpecFloat.emin, B64.prec, B64.emax in *. lia. }
  apply (Z.pow_le_mono_r 2) in P; lia.
Qed.

Lemma round_nearest_even_pos (m : Z) (l : SpecFloat.location) :
  0 < m -> 0 < SpecFloat.round_nearest_even m l.
Proof.
  intros H. unfold SpecFloat.round_nearest_even.
  destruct l as [|[| |]]; try lia. destruct (Z.even m); lia.
Qed.

(** The sign of a rounded number is the sign given. *)
Lemma binary_round_aux_sign (s : bool) (m e : Z) (l : SpecFloat.location) :
  match SpecFloat.binary_round_aux B64.prec B64.emax s m e l with
  | SpecFloat.S754_nan => True
  | SpecFloat.S754_zero s' | SpecFloat.S754_infinity s'
  | SpecFloat.S754_finite s' _ _ => s' = s
  end.
Proof.
  unfold SpecFloat.binary_round_aux.
  destruct (SpecFloat.shr_fexp B64.prec B64.emax m e l) as [r1 e1].
  destruct (SpecFloat.shr_fexp _ _ _ e1 _) as [r2 e2].
  destruct (SpecFloat.shr_m r2); [reflexivity| |exact I].
  destruct (e2 <=? B64.emax - B64.prec); reflexivity.
Qed.

Lemma binary_round_aux_emin (s : bool) (m e : Z) (l : SpecFloat.location) :
  Sign.above_emin (SpecFloat.binary_round_aux B64.prec B64.emax s m e l).
Proof.
  unfold SpecFloat.binary_round_aux.
  destruct (SpecFloat.shr_fexp B64.prec B64.emax m e l) as [r1 e1].
  pose proof (shr_fexp_emin
    (SpecFloat.round_nearest_even (SpecFloat.shr_m r1)
       (SpecFloat.loc_of_shr_record r1)) e1 SpecFloat.loc_Exact) as H.
  destruct (SpecFloat.shr_fexp _ _ _ e1 _) as [r2 e2]. simpl in H.
  destruct (SpecFloat.shr_m r2); [exact I| |exact I].
  destruct (e2 <=? B64.emax - B64.prec); [exact H|exact I].
Qed.

(** A positive number that is not below the least positive one rounds to
    a positive number or to plus infinity. *)
Lemma binary_round_aux_pos (m : positive) (e : Z) (l : SpecFloat.location) :
  SpecFloat.emin B64.prec B64.emax < Z.pos (SpecFloat.digits2_pos m) + e ->
  Sign.positive
    (SpecFloat.binary_round_aux B64.prec B64.emax false (Z.pos m) e l).
Proof.
  intros H. unfold SpecFloat.binary_round_aux.
  pose proof (shr_fexp_pos m e l H) as P1.
  pose proof (shr_fexp_emin (Z.pos m) e l) as E1.
  destruct (SpecFloat.shr_fexp B64.prec B64.emax (Z.pos m) e l) as [r1 e1].
  simpl in P1, E1.
  pose proof (round_nearest_even_pos (SpecFloat.loc_of_shr_record r1) P1)
    as P2.
  destruct (SpecFloat.round_nearest_even (SpecFloat.shr_m r1)
              (SpecFloat.loc_of_shr_record r1)) as [|m2|m2]; try lia.
  assert (H2 : SpecFloat.emin B64.prec B64.emax
               < Z.pos (SpecFloat.digits2_pos m2) + e1) by lia.
  pose proof (shr_fexp_pos m2 e1 SpecFloat.loc_Exact H2) as P3.
  destruct (SpecFloat.shr_fexp B64.prec B64.emax (Z.pos m2) e1
              SpecFloat.loc_Exact) as [r2 e2].
  simpl in P3. destruct (SpecFloat.shr_m r2) as [|m3|m3]; try lia.
  destruct (e2 <=? B64.emax - B64.prec); exact I.
Qed.

Lemma binary_round_pos (m : positive) (e : Z) :
  SpecFloat.emin B64.prec B64.emax < Z.pos (SpecFloat.digits2_pos m) + e ->
  Sign.positive (SpecFloat.binary_round B64.prec B64.emax false m e).
Proof.
  intros H. unfold SpecFloat.binary_round, SpecFloat.shl_align.
  destruct (SpecFloat.fexp B64.prec B64.emax
              (Z.pos (SpecFloat.digits2_pos m) + e) - e) as [|d|d] eqn:E;
    try (apply binary_round_aux_pos; exact H).
  apply binary_round_aux_pos. rewrite digits_iter_xO. lia.
Qed.

Lemma binary_round_sign (s : bool) (m : positive) (e : Z) :
  match SpecFloat.binary_round B64.prec B64.emax s m e with
  | SpecFloat.S754_nan => True
  | SpecFloat.S754_zero s' | SpecFloat.S754_infinity s'
  | SpecFloat.S754_finite s' _ _ => s' = s
  end.
Proof.
  unfold SpecFloat.binary_round.
  destruct (SpecFloat.shl_align m e _) as [mz ez].
  apply binary_round_aux_sign.
Qed.

Lemma valid_above_emin (x : SpecFloat.spec_float) :
  SpecFloat.valid_binary B64.prec B64.emax x = true -> Sign.above_emin x.
Proof.
  destruct x as [s|s| |s m e]; simpl; auto.
  unfold SpecFloat.bounded, SpecFloat.canonical_mantissa. intros H.
  apply andb_prop in H. destruct H as [H _]. apply Z.eqb_eq in H.
  rewrite <- H. apply fexp_ge_emin.
Qed.

End Binary64_rounding.

(** ** Binary64: the signs of sums, products and quotients *)

Section Binary64_signs.

Lemma positive_ltb (x : SpecFloat.spec_float) :
  Sign.positive x <-> SpecFloat.SFltb (SpecFloat.S754_zero false) x = true.
Proof.
  destruct x as [s|s| |s m e]; try destruct s; simpl; split; intros H;
    try discriminate; try contradiction; try reflexivity; exact I.
Qed.

Lemma not_negative_ltb (x : SpecFloat.spec_float) :
  Sign.not_negative x
  <-> SpecFloat.SFltb x (SpecFloat.S754_zero false) = false.
Proof.
  destruct x as [s|s| |s m e]; try destruct s; simpl; split; intros H;
    try discriminate; try reflexivity; exact I.
Qed.

Lemma leb_not_negative (x : SpecFloat.spec_float) :
  SpecFloat.SFleb (SpecFloat.S754_zero false) x = true ->
  Sign.not_negative x.
Proof.
  destruct x as [s|s| |s m e]; try destruct s; simpl; intros H;
    try discriminate; try reflexivity; exact I.
Qed.

Lemma leb_zero (x : SpecFloat.spec_float) :
  Sign.is_zero x ->
  SpecFloat.SFleb (SpecFloat.S754_zero false) x = true.
Proof. destruct x; simpl; intros H; try contradiction; reflexivity. Qed.

Lemma unsigned_not_negative (x : SpecFloat.spec_float) :
  Sign.unsigned x -> Sign.not_negative x.
Proof. destruct x; simpl; auto. Qed.

Lemma positive_unsigned (x : SpecFloat.spec_float) :
  Sign.positive x -> Sign.unsigned x.
Proof. destruct x as [s|s| |s m e]; try destruct s; simpl; tauto. Qed.

(** Adding a number that is not below zero to a sum without a sign leaves
    a sum without a sign. *)
Lemma SFadd_unsigned (a t : SpecFloat.spec_float) :
  Sign.unsigned a -> Sign.not_negative t ->
  Sign.unsigned (SpecFloat.SFadd B64.prec B64.emax a t).
Proof.
  destruct a as [sa|sa| |sa ma ea]; destruct t as [st|st| |st mt et];
    simpl; intros Ha Ht; subst; try destruct st; try reflexivity;
    try exact I; try discriminate.
  apply binary_round_sign.
Qed.

Lemma SFmul_not_negative (a b : SpecFloat.spec_float) :
  Sign.not_negative a -> Sign.not_negative b ->
  Sign.not_negative (SpecFloat.SFmul B64.prec B64.emax a b).
Proof.
  destruct a as [sa|sa| |sa ma ea]; destruct b as [sb|sb| |sb mb eb];
    simpl; intros Ha Hb; subst; try reflexivity; try exact I.
  apply unsigned_not_negative.
  exact (binary_round_aux_sign false (Z.pos (ma * mb)) (ea + eb)
           SpecFloat.loc_Exact).
Qed.

Lemma SFdiv_not_negative (a b : SpecFloat.spec_float) :
  Sign.not_negative a -> Sign.unsigned b ->
  Sign.not_negative (SpecFloat.SFdiv B64.prec B64.emax a b).
Proof.
  destruct a as [sa|sa| |sa ma ea]; destruct b as [sb|sb| |sb mb eb];
    simpl; intros Ha Hb; subst; try reflexivity; try exact I.
  destruct (SpecFloat.SFdiv_core_binary _ _ _ _ _ _) as [[mz ez] lz].
  apply unsigned_not_negative.
  exact (binary_round_aux_sign false mz ez lz).
Qed.

Lemma SFdiv_unsigned (a b : SpecFloat.spec_float) :
  Sign.unsigned a -> Sign.unsigned b ->
  Sign.unsigned (SpecFloat.SFdiv B64.prec B64.emax a b).
Proof.
  destruct a as [sa|sa| |sa ma ea]; destruct b as [sb|sb| |sb mb eb];
    simpl; intros Ha Hb; subst; try reflexivity; try exact I.
  destruct (SpecFloat.SFdiv_core_binary _ _ _ _ _ _) as [[mz ez] lz].
  exact (binary_round_aux_sign false mz ez lz).
Qed.

Lemma SFdiv_above_emin (a b : SpecFloat.spec_float) :
  Sign.above_emin (SpecFloat.SFdiv B64.prec B64.emax a b).
Proof.
  destruct a as [sa|sa| |sa ma ea]; destruct b as [sb|sb| |sb mb eb];
    simpl; try exact I.
  destruct (SpecFloat.SFdiv_core_binary _ _ _ _ _ _) as [[mz ez] lz].
  apply binary_round_aux_emin.
Qed.

Lemma of_nat_unsigned (n : nat) :
  Sign.unsigned
    (SpecFloat.binary_normalize B64.prec B64.emax (Z.of_nat n) 0 false).
Proof.
  destruct (Z.of_nat n) as [|p|p] eqn:E; simpl; try reflexivity.
  - apply binary_round_sign.
  - lia.
Qed.

(** A positive number plus a number that is not below zero is positive,
    or plus infinity, or a NaN when the second one is: the sum cannot
    round to zero. *)
Lemma SFadd_positive (a t : SpecFloat.spec_float) :
  Sign.positive a -> Sign.above_emin a -> Sign.not_negative t ->
  SpecFloat.SFadd B64.prec B64.emax a t = SpecFloat.S754_nan
  \/ Sign.positive (SpecFloat.SFadd B64.prec B64.emax a t).
Proof.
  destruct a as [sa|sa| |sa ma ea]; try destruct sa; simpl;
    try contradiction; intros _ Ha Ht.
  - destruct t as [st|st| |st mt et]; simpl in *; subst; auto.
  - destruct t as [st|st| |st mt et]; simpl in *; subst; auto.
    right. apply binary_round_pos.
    unfold SpecFloat.shl_align.
    pose proof (Pos2Z.is_pos (SpecFloat.digits2_pos ma)) as Dpos.
    assert (Hle : forall x y : positive,
               (Z.pos (SpecFloat.digits2_pos x)
                <= Z.pos (SpecFloat.digits2_pos (x + y)))%Z).
    { intros x y. apply digits_mono. lia. }
    destruct (Z.min ea et - ea)%Z as [|d|d] eqn:E1; simpl fst;
      [ specialize (Hle ma
          (fst (match (Z.min ea et - et)%Z with
                | Z.neg d0 => (Pos.iter xO mt d0, Z.min ea et)
                | _ => (mt, et)
                end))); lia
      | lia
      | ].
    specialize (Hle (Pos.iter xO ma d)
          (fst (match (Z.min ea et - et)%Z with
                | Z.neg d0 => (Pos.iter xO mt d0, Z.min ea et)
                | _ => (mt, et)
                end))).
    rewrite digits_iter_xO in Hle. lia.
Qed.

(** With a zero or a NaN in it, a product is a zero or a NaN; so is a
    quotient whose numerator is one, and a sum of two of them. *)
Lemma SFmul_zero_or_nan_l (a b : SpecFloat.spec_float) :
  Sign.zero_or_nan a ->
  Sign.zero_or_nan (SpecFloat.SFmul B64.prec B64.emax a b).
Proof. destruct a, b; simpl; tauto. Qed.

Lemma SFmul_zero_or_nan_r (a b : SpecFloat.spec_float) :
  Sign.zero_or_nan b ->
  Sign.zero_or_nan (SpecFloat.SFmul B64.prec B64.emax a b).
Proof. destruct a, b; simpl; tauto. Qed.

Lemma SFdiv_zero_or_nan (a b : SpecFloat.spec_float) :
  Sign.zero_or_nan a ->
  Sign.zero_or_nan (SpecFloat.SFdiv B64.prec B64.emax a b).
Proof. destruct a, b; simpl; tauto. Qed.

Lemma SFadd_zero_or_nan (a b : SpecFloat.spec_float) :
  Sign.zero_or_nan a -> Sign.zero_or_nan b ->
  Sign.zero_or_nan (SpecFloat.SFadd B64.prec B64.emax a b).
Proof.
  destruct a as [sa|sa| |sa ma ea]; destruct b as [sb|sb| |sb mb eb];
    simpl; try tauto.
  destruct sa, sb; simpl; tauto.
Qed.

(** Adding a zero or a NaN to [q] gives [q] or a NaN, unless [q] is the
    negative zero. *)
Lemma SFadd_zero_or_nan_r (q t : SpecFloat.spec_float) :
  Sign.zero_or_nan t -> q <> SpecFloat.S754_zero true ->
  SpecFloat.SFadd B64.prec B64.emax q t = q
  \/ SpecFloat.SFadd B64.prec B64.emax q t = SpecFloat.S754_nan.
Proof.
  destruct q as [sq|sq| |sq mq eq]; destruct t as [st|st| |st mt et];
    simpl; try tauto.
  destruct sq, st; simpl; try tauto; intros _ H; contradiction H;
    reflexivity.
Qed.

Lemma eqb_zero (x : SpecFloat.spec_float) :
  SpecFloat.SFeqb x (SpecFloat.S754_zero false) = true -> Sign.is_zero x.
Proof.
  destruct x as [b|b| |b m e]; try destruct b; simpl; intros H;
    try discriminate; exact I.
Qed.

Lemma zero_or_nan_not_positive (x : SpecFloat.spec_float) :
  Sign.zero_or_nan x ->
  SpecFloat.SFltb (SpecFloat.S754_zero false) x = false.
Proof. destruct x; simpl; try tauto; reflexivity. Qed.

End Binary64_signs.

(** ** Binary64: the signs of the entries of the beta update *)

Section Binary64_beta.
Variables libm_exp libm_log : SpecFloat.spec_float -> SpecFloat.spec_float.
Let SF : Scalar SpecFloat.spec_float := B64.scalar libm_exp libm_log.
Local Existing Instance SF.

Lemma ent_forall (n p : nat) (P : SpecFloat.spec_float -> Prop)
  (A : list (list SpecFloat.spec_float)) (i j : nat) :
  shape n p A -> Forall (Forall P) A -> i < n -> j < p -> P (ent A i j).
Proof.
  intros HA HP Hi Hj. unfold ent.
  rewrite Forall_forall in HP.
  assert (Hr : In (nth i A []) A) by (apply nth_In; destruct HA; lia).
  specialize (HP _ Hr). rewrite Forall_forall in HP.
  apply HP, nth_In. rewrite (shape_row HA Hi). exact Hj.
Qed.

(** A matrix with one row and one column. *)
Lemma mat_1x1 (A : list (list SpecFloat.spec_float)) :
  shape 1 1 A -> A = [[ent A 0 0]].
Proof.
  intros [Hn Hr]. destruct A as [|r [|r' A]]; try discriminate Hn.
  inversion Hr as [|? ? Hl _]; subst.
  destruct r as [|x [|y r]]; try discriminate Hl. reflexivity.
Qed.

Lemma fold_SFadd_unsigned (xs : list SpecFloat.spec_float)
  (a : SpecFloat.spec_float) :
  Sign.unsigned a -> Forall Sign.not_negative xs ->
  Sign.unsigned (fold_left (SpecFloat.SFadd B64.prec B64.emax) xs a).
Proof.
  revert a. induction xs as [|x xs IH]; intros a Ha Hx; simpl; auto.
  inversion Hx; subst. apply IH; auto. apply SFadd_unsigned; auto.
Qed.

Lemma fold_SFadd_zero_or_nan (xs : list SpecFloat.spec_float)
  (a : SpecFloat.spec_float) :
  Sign.zero_or_nan a -> Forall Sign.zero_or_nan xs ->
  Sign.zero_or_nan (fold_left (SpecFloat.SFadd B64.prec B64.emax) xs a).
Proof.
  revert a. induction xs as [|x xs IH]; intros a Ha Hx; simpl; auto.
  inversion Hx; subst. apply IH; auto. apply SFadd_zero_or_nan; auto.
Qed.

(** A sum of numbers that are not below zero has no sign. *)
Lemma Sum_unsigned (n : nat) (f : nat -> SpecFloat.spec_float) :
  (forall i, i < n -> Sign.not_negative (f i)) -> Sign.unsigned (Sum n f).
Proof.
  intros Hf. unfold Sum, fsum.
  apply fold_SFadd_unsigned; [reflexivity|].
  rewrite Forall_map, Forall_forall. intros i Hi.
  apply in_seq in Hi. apply Hf. lia.
Qed.

Lemma Sum_zero_or_nan (n : nat) (f : nat -> SpecFloat.spec_float) :
  (forall i, i < n -> Sign.zero_or_nan (f i)) ->
  Sign.zero_or_nan (Sum n f).
Proof.
  intros Hf. unfold Sum, fsum.
  apply fold_SFadd_zero_or_nan; [exact I|].
  rewrite Forall_map, Forall_forall. intros i Hi.
  apply in_seq in Hi. apply Hf. lia.
Qed.

Variables (hp : hyper SpecFloat.spec_float) (V D : nat)
  (X : list (list SpecFloat.spec_float)) (s : params SpecFloat.spec_float).

(** Without counts in row [v] of [X], the entry (v, k) of the new [g] is
    the prior term [c0 / V], or a NaN. *)
Lemma beta_g_at_no_data (v k : nat) :
  (forall d, d < D -> Sign.is_zero (ent X v d)) ->
  fdiv (c0 hp) (of_nat V) <> SpecFloat.S754_zero true ->
  beta_g_at hp V D X s v k = fdiv (c0 hp) (of_nat V)
  \/ beta_g_at hp V D X s v k = SpecFloat.S754_nan.
Proof.
  intros HX Hq. unfold beta_g_at.
  apply SFadd_zero_or_nan_r; [|exact Hq].
  apply SFmul_zero_or_nan_r. apply Sum_zero_or_nan. intros d Hd.
  apply SFmul_zero_or_nan_l. apply SFdiv_zero_or_nan.
  specialize (HX d Hd). destruct (ent X v d); simpl in *; tauto.
Qed.

Hypothesis Hexp : forall x, Sign.not_negative (libm_exp x).

Lemma auxsum_at_unsigned (v d : nat) : Sign.unsigned (auxsum_at hp s v d).
Proof.
  unfold auxsum_at. apply Sum_unsigned. intros k Hk.
  apply SFmul_not_negative; apply Hexp.
Qed.

Lemma beta_sum_unsigned (v k : nat) :
  (forall d, d < D -> Sign.not_negative (ent X v d)) ->
  Sign.unsigned
    (Sum D (fun d => fmul (fdiv (ent X v d) (auxsum_at hp s v d))
                          (fexp (theta_at hp s k d)))).
Proof.
  intros HX. apply Sum_unsigned. intros d Hd.
  apply SFmul_not_negative; [|apply Hexp].
  apply SFdiv_not_negative; [apply HX, Hd | apply auxsum_at_unsigned].
Qed.

Lemma beta_term_not_negative (v k : nat) :
  (forall d, d < D -> Sign.not_negative (ent X v d)) ->
  Sign.not_negative
    (fmul (fexp (ent (Elogb s) v k))
       (Sum D (fun d => fmul (fdiv (ent X v d) (auxsum_at hp s v d))
                             (fexp (theta_at hp s k d))))).
Proof.
  intros HX. apply SFmul_not_negative; [apply Hexp|].
  apply unsigned_not_negative, beta_sum_unsigned, HX.
Qed.

Lemma prior_unsigned :
  Sign.positive (c0 hp) -> Sign.unsigned (fdiv (c0 hp) (of_nat V)).
Proof.
  intros Hc. apply SFdiv_unsigned.
  - apply positive_unsigned, Hc.
  - apply of_nat_unsigned.
Qed.

(** The entries of the new [g] are not below zero. *)
Lemma beta_g_at_unsigned (v k : nat) :
  Sign.positive (c0 hp) ->
  (forall d, d < D -> Sign.not_negative (ent X v d)) ->
  Sign.unsigned (beta_g_at hp V D X s v k).
Proof.
  intros Hc HX. unfold beta_g_at.
  apply SFadd_unsigned; [apply prior_unsigned, Hc|].
  apply beta_term_not_negative, HX.
Qed.

Lemma beta_h_at_unsigned (k : nat) :
  Sign.positive (c0 hp) -> Sign.unsigned (beta_h_at hp D s k).
Proof.
  intros Hc. unfold beta_h_at.
  apply SFadd_unsigned; [apply positive_unsigned, Hc|].
  apply unsigned_not_negative, Sum_unsigned. intros d Hd. apply Hexp.
Qed.

(** They are positive or a NaN, unless [c0 / V] rounds to zero. *)
Lemma beta_g_at_positive (v k : nat) :
  Sign.positive (c0 hp) ->
  (forall d, d < D -> Sign.not_negative (ent X v d)) ->
  fdiv (c0 hp) (of_nat V) <> SpecFloat.S754_zero false ->
  beta_g_at hp V D X s v k = SpecFloat.S754_nan
  \/ Sign.positive (beta_g_at hp V D X s v k).
Proof.
  intros Hc HX Hq. unfold beta_g_at.
  pose proof (prior_unsigned Hc) as Uq.
  pose proof (SFdiv_above_emin (c0 hp) (of_nat V)) as Eq.
  pose proof (beta_term_not_negative v k HX) as Ht.
  change (fdiv (c0 hp) (of_nat V))
    with (SpecFloat.SFdiv B64.prec B64.emax (c0 hp) (of_nat V)) in *.
  destruct (SpecFloat.SFdiv B64.prec B64.emax (c0 hp) (of_nat V))
    as [sq|sq| |sq mq eq] eqn:Q; simpl in Uq; subst.
  - contradiction Hq. reflexivity.
  - apply SFadd_positive; [exact I | exact I | exact Ht].
  - left. reflexivity.
  - apply SFadd_positive; [exact I | exact Eq | exact Ht].
Qed.

(** The entries of the new [h] are positive or a NaN. *)
Lemma beta_h_at_positive (k : nat) :
  Sign.positive (c0 hp) ->
  SpecFloat.valid_binary B64.prec B64.emax (c0 hp) = true ->
  beta_h_at hp D s k = SpecFloat.S754_nan
  \/ Sign.positive (beta_h_at hp D s k).
Proof.
  intros Hc Hv. unfold beta_h_at.
  apply SFadd_positive; [exact Hc | apply valid_above_emin, Hv |].
  apply unsigned_not_negative, Sum_unsigned. intros d Hd. apply Hexp.
Qed.

End Binary64_beta.

(** ** Results *)

(** C1.  After [_update_beta] on well-shaped arrays, the entry (v, k) of the
    new [g] is [c0 / V + exp(Elogb[v, k]) * sum_d (X[v, d] / auxsum[v, d]) *
    exp(theta[k, d])], the entry (v, k) of the new [h] is [c0 + sum_d
    exp(theta[k, d])] whatever [v] is, [Eb] and [Elogb] are
    [_compute_expectations] of the new [g] and [h], and alpha, l and u are
    kept; here [theta[k, d] = alpha[d] + sum_j l[k, j] * u[d, j]] and
    [auxsum[v, d] = sum_k exp(Elogb[v, k]) * exp(theta[k, d])]. *)
Theorem update_beta_closed_form {F : Type} {SF : Scalar F} {SP : Special F}
  (hp : hyper F) (V D : nat) (X : list (list F)) (s : params F) :
  well_shaped hp V D X s ->
  let s' := _update_beta hp X s in
  shape V (K hp) (g s') /\
  shape V (K hp) (h s') /\
  (forall v k, v < V -> k < K hp ->
     ent (g s') v k = beta_g_at hp V D X s v k /\
     ent (h s') v k = beta_h_at hp D s k) /\
  (Eb s', Elogb s') = _compute_expectations (g s') (h s') /\
  alpha s' = alpha s /\ l s' = l s /\ u s' = u s.
Proof.
  intros WS s'. subst s'.
  rewrite update_beta_g, update_beta_h.
  split; [apply (shape_g' WS)|].
  split; [apply (shape_h' WS)|].
  split.
  - intros v k Hv Hk. split.
    + apply (ent_g' WS); auto.
    + apply (ent_h' WS); auto.
  - repeat split.
Qed.


(** C2, as the code has it.  At every inner step of [_update_ql] on
    well-shaped arrays, the component [j] of the new row [k] of [l] is
    [l[k, j] + step_size * grad], where [grad] is the sum over all (v, d) of
    [((X / auxsum) * exp(Elogb_k) * exp(theta_k) - Eb_k * exp(theta_k))[v, d]
    * u[d, j] - l[k, j]]: the entry of [l_k] stands inside the sum, once per
    pair (v, d).  The arrays stay well shaped from step to step. *)
Theorem update_ql_gradient {F : Type} {SF : Scalar F}
  (hp : hyper F) (V D : nat) (X : list (list F)) (s : params F) :
  well_shaped hp V D X s ->
  _update_ql hp X s = Nat.iter (num_steps hp) (ql_step hp X) s /\
  forall i,
    let si := Nat.iter i (ql_step hp X) s in
    well_shaped hp V D X si /\
    forall k j, k < K hp -> j < m hp ->
      ent (l (ql_step hp X si)) k j
      = fadd (ent (l si) k j)
             (fmul (step_size hp) (ql_grad_at hp V D X si k j)).
Proof.
  intros WS. split; [reflexivity|].
  intros i.
  assert (WSi : well_shaped hp V D X (Nat.iter i (ql_step hp X) s)).
  { induction i as [|i IH]; simpl; auto.
    apply well_shaped_ql_step; auto. }
  split; [exact WSi|].
  intros k j Hk Hj. apply (ent_ql_step WSi); auto.
Qed.

(** C6, as the code has it.  In one inner step of [_update_ql] every row of
    the new [l] is computed by the loop body from the [l] the step started
    with: the rows written to [l_temp] are not read back before the step
    ends, so the gradient of an index does not see the rows already
    recomputed for the other indices. *)
Theorem ql_step_synchronous {F : Type} {SF : Scalar F}
  (hp : hyper F) (X : list (list F)) (s : params F) :
  nrow (l s) = K hp ->
  l (ql_step hp X s) = map (ql_row hp X s) (seq 0 (K hp)) /\
  forall k, k < K hp -> row k (l (ql_step hp X s)) = ql_row hp X s k.
Proof.
  intros Hl.
  assert (E : l (ql_step hp X s) = map (ql_row hp X s) (seq 0 (K hp))).
  { simpl. apply fold_set_row_all. rewrite length_zeros. exact Hl. }
  split; [exact E|].
  intros k Hk. unfold row. rewrite E. apply nth_map_seq; auto.
Qed.

(** C10.  After [_update_beta] on well-shaped arrays, [h] has [V] rows of
    length [K], any two of them are equal, and the entry [k] of each is
    [c0 + sum_d exp(theta[k, d])]. *)
Theorem update_beta_h_rows_equal {F : Type} {SF : Scalar F} {SP : Special F}
  (hp : hyper F) (V D : nat) (X : list (list F)) (s : params F) :
  well_shaped hp V D X s ->
  let s' := _update_beta hp X s in
  shape V (K hp) (h s') /\
  (forall v v', v < V -> v' < V -> row v (h s') = row v' (h s')) /\
  (forall v k, v < V -> k < K hp -> ent (h s') v k = beta_h_at hp D s k).
Proof.
  intros WS s'. subst s'. rewrite update_beta_h.
  split; [apply (shape_h' WS)|]. split.
  - intros v v' Hv Hv'. unfold row, tile.
    rewrite (nrow_X WS), !nth_repeat_lt by auto. reflexivity.
  - intros v k Hv Hk. apply (ent_h' WS); auto.
Qed.

(** C7.  [_update_beta] is the only update that assigns [g] and [h], and it
    stores with them the expectations computed from them: afterwards
    [Eb[v, k] = g[v, k] / h[v, k]] and [Elogb[v, k] = psi(g[v, k]) -
    log(h[v, k])] for every entry.  The alpha, l and u updates leave [g],
    [h], [Eb] and [Elogb] as they are, so that expectations that agree with
    (g, h) before [_update] agree with them after it. *)
Theorem expectations_follow_gh {F : Type} {SF : Scalar F} {SP : Special F}
  {SO : Ordered F}
  (hp : hyper F) (V D : nat) (X : list (list F)) (s : params F) :
  well_shaped hp V D X s ->
  let s' := _update_beta hp X s in
  consistent s' /\
  (forall v k, v < V -> k < K hp ->
     ent (Eb s') v k = fdiv (ent (g s') v k) (ent (h s') v k) /\
     ent (Elogb s') v k
     = fsub (psi (ent (g s') v k)) (flog (ent (h s') v k))) /\
  same_beta s (_update_alpha X s) /\
  same_beta s (_update_ql hp X s) /\
  same_beta s (_update_qu hp X s) /\
  (forall ub, consistent s -> consistent (fst (_update hp X ub s))).
Proof.
  intros WS s'.
  pose proof (consistent_update_beta hp X s) as [CE CL].
  fold s' in CE, CL.
  assert (Hg : shape V (K hp) (g s'))
    by (unfold s'; rewrite update_beta_g; apply (shape_g' WS)).
  assert (Hh : shape V (K hp) (h s'))
    by (unfold s'; rewrite update_beta_h; apply (shape_h' WS)).
  split; [split; assumption|]. split.
  - intros v k Hv Hk. rewrite CE, CL. split.
    + apply (ent_mzip fdiv Hg Hh); auto.
    + rewrite (ent_mzip fsub (n := V) (p := K hp)); auto.
      * rewrite (ent_map psi Hg) by auto.
        unfold mlog. rewrite (ent_map flog Hh) by auto. reflexivity.
      * apply shape_map; auto.
      * apply shape_map; auto.
  - split; [apply same_beta_update_alpha|].
    split; [apply same_beta_update_ql|].
    split; [apply same_beta_update_qu|].
    intros ub C. apply consistent_update_from; auto.
Qed.

(** C3.  [_update] in binary64 arithmetic, whatever the C library computes
    for the exponential, the logarithm and scipy's functions.  The loop makes
    [c] passes, at most [max_iters]; no test before the last pass succeeds,
    and the loop stops short of [max_iters] only after a pass whose test
    [(elbo_new - elbo_old) / abs(elbo_old) < tolerance] succeeds.  The test
    of the first pass fails for every tolerance and every bound, since
    [elbo_old] is minus infinity there; so with [max_iters = 1] exactly one
    pass is made, and with a larger [max_iters] at least two.  A pass is
    [_update_alpha], then [_update_ql], then [_update_qu], then (when asked)
    [_update_beta], each on the arrays the one before left: the arrays
    returned are [c] such passes applied to the arrays given, and the bound
    of each test is taken on the arrays of the pass it ends. *)
Theorem update_loop_stopping
  (libm_exp libm_log : SpecFloat.spec_float -> SpecFloat.spec_float)
  (SP : Special SpecFloat.spec_float)
  (hp : hyper SpecFloat.spec_float) (X : list (list SpecFloat.spec_float))
  (ub : bool) (s : params SpecFloat.spec_float) :
  let SF := B64.scalar libm_exp libm_log in
  let SO := B64.ordered in
  let pass := fun p : params SpecFloat.spec_float =>
    let q := _update_qu hp X (_update_ql hp X (_update_alpha X p)) in
    if ub then _update_beta hp X q else q in
  let '(r, c) := _update hp X ub s in
  r = Nat.iter c pass s /\
  c <= max_iters hp /\
  (forall t, S t < c -> stops_in_pass hp X ub s t = false) /\
  (c < max_iters hp -> 1 <= c /\ stops_in_pass hp X ub s (c - 1) = true) /\
  stops_in_pass hp X ub s 0 = false /\
  (max_iters hp = 1 -> c = 1 /\ r = pass s) /\
  (2 <= max_iters hp -> 2 <= c) /\
  (forall t,
   stops_in_pass hp X ub s t
   = fltb (fdiv (fsub (_bound hp X (Nat.iter (S t) pass s))
                      (match t with
                       | 0 => neg_inf
                       | S _ => _bound hp X (Nat.iter t pass s)
                       end))
                (fabs (match t with
                       | 0 => neg_inf
                       | S _ => _bound hp X (Nat.iter t pass s)
                       end)))
          (tolerance hp)).
Proof.
  intros SF SO pass.
  assert (Pass : forall p, cycle hp X ub p = pass p).
  { intros p. unfold cycle, pass. reflexivity. }
  assert (After : forall t, state_after hp X ub s t = Nat.iter t pass s).
  { intros t. unfold state_after. induction t as [|t IH]; [reflexivity|].
    simpl. rewrite IH. apply Pass. }
  pose proof (update_from_passes hp X ub s (max_iters hp) 0) as P.
  change (update_from hp X ub (max_iters hp) (elbo_before hp X ub s 0)
                      (state_after hp X ub s 0))
    with (_update hp X ub s) in P.
  destruct (_update hp X ub s) as [r c].
  destruct P as (Hr & Hc & Hc1 & Hno & Hstop). simpl in Hr.
  assert (First0 : stops_in_pass hp X ub s 0 = false).
  { unfold stops_in_pass, converged. apply b64_first_test. }
  rewrite After in Hr.
  split; [exact Hr|]. split; [exact Hc|]. split.
  { intros t Ht. apply Hno; lia. }
  split.
  { intros Hlt. split; [lia|]. apply Hstop in Hlt. exact Hlt. }
  split; [exact First0|]. split.
  { intros H1. assert (c = 1) by lia. subst c. split; [reflexivity|].
    exact Hr. }
  split.
  { intros H2. destruct (Nat.eq_dec c 1) as [->|Hne]; [|lia].
    assert (Hs : stops_in_pass hp X ub s (0 + 1 - 1) = true)
      by (apply Hstop; lia).
    change (0 + 1 - 1) with 0 in Hs. rewrite First0 in Hs. discriminate. }
  intros t. unfold stops_in_pass, converged, elbo_before.
  rewrite After. destruct t as [|t]; [reflexivity|].
  rewrite After. reflexivity.
Qed.

(** C9.  [transform] on an instance without [Eb] (in particular on one
    that was never fitted) raises [ValueError('No beta initialized.')];
    on an instance whose [Eb] has another number of rows than [X] (in
    particular after a [fit] on an input with another number of rows) it
    raises [ValueError('Feature dim mismatch.')]; [fit] itself returns
    normally.  In both cases the instance and the random generator are left
    as they were: the checks come before any initialisation or update. *)
Theorem transform_checks {F G : Type} {SF : Scalar F} {SP : Special F}
  {SO : Ordered F}
  (rand_gamma : F -> F -> G -> F * G)
  (rand_mvn : list F -> list (list F) -> G -> list F * G)
  (rand_random : G -> F * G)
  (X : list (list F)) (attr : option string) (w : world F G) :
  (o_Eb (self w) = None ->
   transform rand_mvn rand_random X attr w
   = (inr (ValueError "No beta initialized."), w)) /\
  (forall eb, o_Eb (self w) = Some eb -> nrow eb <> nrow X ->
   transform rand_mvn rand_random X attr w
   = (inr (ValueError "Feature dim mismatch."), w)) /\
  (forall hp,
   transform rand_mvn rand_random X attr (World (new hp) (np_random w))
   = (inr (ValueError "No beta initialized."),
      World (new hp) (np_random w))) /\
  (forall X0, exists w1,
   fit rand_gamma rand_mvn rand_random X0 w = (inl tt, w1) /\
   (nrow X <> nrow X0 ->
    transform rand_mvn rand_random X attr w1
    = (inr (ValueError "Feature dim mismatch."), w1))).
Proof.
  assert (Mis : forall w' eb, o_Eb (self w') = Some eb -> nrow eb <> nrow X ->
            transform rand_mvn rand_random X attr w'
            = (inr (ValueError "Feature dim mismatch."), w')).
  { intros w' eb E Hne. unfold transform. rewrite E.
    apply Nat.eqb_neq in Hne. rewrite Hne. reflexivity. }
  split; [|split; [|split]].
  - intros E. unfold transform. rewrite E. reflexivity.
  - exact (Mis w).
  - intros hp. reflexivity.
  - intros X0.
    destruct (fit_leaves_Eb rand_gamma rand_mvn rand_random X0 w)
      as (w1 & eb & Hfit & E & Hrows).
    exists w1. split; [exact Hfit|].
    intros Hne. apply (Mis w1 eb E). congruence.
Qed.

(** C4, what the code does.  [transform] on an instance whose [Eb] has as
    many rows as [X] (in particular after a [fit] on an input with that
    number of rows) raises [TypeError]: it calls [self._init_ql()] without
    the argument [D] that the method requires.  Nothing is reinitialised,
    no update is run and no attribute is returned. *)
Theorem transform_fitted_raises {F G : Type} {SF : Scalar F} {SP : Special F}
  {SO : Ordered F}
  (rand_gamma : F -> F -> G -> F * G)
  (rand_mvn : list F -> list (list F) -> G -> list F * G)
  (rand_random : G -> F * G)
  (X : list (list F)) (attr : option string) (w : world F G) :
  (forall eb, o_Eb (self w) = Some eb -> nrow eb = nrow X ->
   transform rand_mvn rand_random X attr w
   = (inr (TypeError "_init_ql() missing 1 required positional argument"),
      w)) /\
  (forall X0, exists w1,
   fit rand_gamma rand_mvn rand_random X0 w = (inl tt, w1) /\
   (nrow X = nrow X0 ->
    transform rand_mvn rand_random X attr w1
    = (inr (TypeError "_init_ql() missing 1 required positional argument"),
       w1))).
Proof.
  assert (Hit : forall w' eb, o_Eb (self w') = Some eb -> nrow eb = nrow X ->
            transform rand_mvn rand_random X attr w'
            = (inr (TypeError
                      "_init_ql() missing 1 required positional argument"),
               w')).
  { intros w' eb E He. unfold transform. rewrite E.
    apply Nat.eqb_eq in He. rewrite He. reflexivity. }
  split.
  - exact (Hit w).
  - intros X0.
    destruct (fit_leaves_Eb rand_gamma rand_mvn rand_random X0 w)
      as (w1 & eb & Hfit & E & Hrows).
    exists w1. split; [exact Hfit|].
    intros He. apply (Hit w1 eb E). congruence.
Qed.

(** C8.  [_update_beta] in binary64 arithmetic, for a C library whose
    exponential never returns a number below zero, a binary64 number
    [c0 > 0], well-shaped arrays (so [V >= 1]) and an input [X] whose
    entries are all [>= 0], whatever [g], [h], [l], [u] and alpha were
    before.  No entry of the new [g] is below zero; every entry of the new
    [h] is strictly positive (it can be plus infinity) or a NaN; and every
    entry of the new [g] is strictly positive or a NaN unless [c0 / V]
    rounds to zero.  Strict positivity of every entry does not hold. *)
Theorem update_beta_sign
  (libm_exp libm_log : SpecFloat.spec_float -> SpecFloat.spec_float)
  (SP : Special SpecFloat.spec_float)
  (hp : hyper SpecFloat.spec_float) (V D : nat)
  (X : list (list SpecFloat.spec_float)) (s : params SpecFloat.spec_float) :
  let SF := B64.scalar libm_exp libm_log in
  let zero := SpecFloat.S754_zero false in
  well_shaped hp V D X s ->
  (forall x, SpecFloat.SFltb (libm_exp x) zero = false) ->
  SpecFloat.SFltb zero (c0 hp) = true ->
  SpecFloat.valid_binary B64.prec B64.emax (c0 hp) = true ->
  Forall (Forall (fun x => SpecFloat.SFleb zero x = true)) X ->
  let s' := _update_beta hp X s in
  Forall (Forall (fun x => SpecFloat.SFltb x zero = false)) (g s') /\
  Forall (Forall (fun x => x = SpecFloat.S754_nan
                           \/ SpecFloat.SFltb zero x = true)) (h s') /\
  (fdiv (c0 hp) (of_nat V) <> zero ->
   Forall (Forall (fun x => x = SpecFloat.S754_nan
                            \/ SpecFloat.SFltb zero x = true)) (g s')).
Proof.
  intros SF zero WS Hexp Hc Hv HX s'. subst s'.
  rewrite update_beta_g, update_beta_h.
  assert (Hexp' : forall x, Sign.not_negative (libm_exp x))
    by (intros x; apply not_negative_ltb, Hexp).
  assert (Hc' : Sign.positive (c0 hp)) by (apply positive_ltb, Hc).
  assert (HX' : forall v d, v < V -> d < D -> Sign.not_negative (ent X v d)).
  { intros v d Hlv Hld. apply leb_not_negative.
    apply (@ent_forall libm_exp libm_log V D
             (fun x => SpecFloat.SFleb zero x = true) X v d
             (ws_X WS) HX Hlv Hld). }
  split; [|split].
  - apply (forall_ent (fun x => SpecFloat.SFltb x zero = false)
             (shape_g' WS)).
    intros v k Hlv Hlk. rewrite (ent_g' WS) by auto.
    apply not_negative_ltb, unsigned_not_negative.
    apply (@beta_g_at_unsigned libm_exp libm_log hp V D X s Hexp' v k Hc').
    intros d Hld. apply HX'; auto.
  - apply (forall_ent (fun x => x = SpecFloat.S754_nan
                                \/ SpecFloat.SFltb zero x = true)
             (shape_h' WS)).
    intros v k Hlv Hlk. rewrite (ent_h' WS) by auto.
    destruct (@beta_h_at_positive libm_exp libm_log hp D s Hexp' k Hc' Hv)
      as [E|P]; [left; exact E | right; apply positive_ltb, P].
  - intros Hq.
    apply (forall_ent (fun x => x = SpecFloat.S754_nan
                                \/ SpecFloat.SFltb zero x = true)
             (shape_g' WS)).
    intros v k Hlv Hlk. rewrite (ent_g' WS) by auto.
    destruct (@beta_g_at_positive libm_exp libm_log hp V D X s Hexp' v k Hc')
      as [E|P]; [intros d Hld; apply HX'; auto | exact Hq
                | left; exact E | right; apply positive_ltb, P].
Qed.

(** ** The results on the small inputs *)

Ltac shapes :=
  constructor; simpl; try lia; split; try reflexivity; repeat constructor.

Lemma update_beta_closed_form_witness :
  well_shaped (Sample.hp 1) 1 1 Sample.X1 Sample.s1 /\
  shape 1 1 (g (_update_beta (SP := Sample.special)
                             (Sample.hp 1) Sample.X1 Sample.s1)).
Proof.
  assert (WS : well_shaped (Sample.hp 1) 1 1 Sample.X1 Sample.s1) by shapes.
  split; [exact WS|].
  exact (proj1 (update_beta_closed_form (SP := Sample.special) WS)).
Defined.


Lemma update_ql_gradient_witness :
  well_shaped (Sample.hp 1) 1 2 Sample.X2 Sample.s2 /\
  well_shaped (Sample.hp 1) 1 2 Sample.X2
              (ql_step (Sample.hp 1) Sample.X2 Sample.s2).
Proof.
  assert (WS : well_shaped (Sample.hp 1) 1 2 Sample.X2 Sample.s2) by shapes.
  split; [exact WS|].
  exact (proj1 (proj2 (update_ql_gradient WS) 1)).
Defined.

(** C2, as the specification words it, fails on [s2]: there [u] is zero, so
    the gradient is made of the copies of [l_k] only; the code subtracts one
    copy for each of the two pairs (v, d) and moves the entry from 1 to -1,
    where a single subtraction would move it to 0. *)
Lemma ql_gradient_counterexample :
  well_shaped (Sample.hp 1) 1 2 Sample.X2 Sample.s2 /\
  ent (l (ql_step (Sample.hp 1) Sample.X2 Sample.s2)) 0 0
  <> fadd (ent (l Sample.s2) 0 0)
          (fmul (step_size (Sample.hp 1))
                (ql_grad_spec_at (Sample.hp 1) 1 2 Sample.X2 Sample.s2 0 0)).
Proof.
  split; [apply ws_s2|].
  rewrite ql_step2, ql_spec2. lra.
Qed.

Lemma ql_step_synchronous_witness :
  nrow (l (Sample.s3 0 0)) = K (Sample.hp 2) /\
  l (ql_step (Sample.hp 2) Sample.X3 (Sample.s3 0 0))
  = map (ql_row (Sample.hp 2) Sample.X3 (Sample.s3 0 0)) (seq 0 2).
Proof.
  split; [reflexivity|].
  exact (proj1 (ql_step_synchronous (Sample.hp 2) Sample.X3
                                    (Sample.s3 0 0) eq_refl)).
Defined.

(** C6, as the specification words it, fails on [s3 0 0]: the code writes 1
    to both rows of [l], where a step in which the second index saw the new
    first row would write [2 / (e + 1)] to the second. *)
Lemma ql_step_counterexample :
  well_shaped (Sample.hp 2) 1 1 Sample.X3 (Sample.s3 0 0) /\
  l (ql_step (Sample.hp 2) Sample.X3 (Sample.s3 0 0))
  <> l (ql_step_sequential (Sample.hp 2) Sample.X3 (Sample.s3 0 0)).
Proof.
  split; [apply ws_s3|].
  rewrite ql_step3, ql_step_sequential3, new_l3_0.
  intros E. injection E as E. exact (new_l3_1 (eq_sym E)).
Qed.

Lemma update_beta_h_rows_equal_witness :
  well_shaped (Sample.hp 1) 1 1 Sample.X1 Sample.s1 /\
  shape 1 1 (h (_update_beta (SP := Sample.special)
                             (Sample.hp 1) Sample.X1 Sample.s1)).
Proof.
  assert (WS : well_shaped (Sample.hp 1) 1 1 Sample.X1 Sample.s1) by shapes.
  split; [exact WS|].
  exact (proj1 (update_beta_h_rows_equal (SP := Sample.special) WS)).
Defined.

Lemma expectations_follow_gh_witness :
  well_shaped Sample.hpf 1 1 Sample.Xf Sample.sf /\
  consistent (SF := Sample.b64) (SP := Sample.b64_special)
             (_update_beta (SF := Sample.b64) (SP := Sample.b64_special)
                           Sample.hpf Sample.Xf Sample.sf).
Proof.
  assert (WS : well_shaped Sample.hpf 1 1 Sample.Xf Sample.sf) by shapes.
  split; [exact WS|].
  exact (proj1 (@expectations_follow_gh _ Sample.b64 Sample.b64_special
                  B64.ordered Sample.hpf 1 1 Sample.Xf Sample.sf WS)).
Defined.

Lemma update_beta_sign_witness :
  well_shaped Sample.hpf 1 1 Sample.Xf Sample.sf /\
  (forall x, SpecFloat.SFltb (SpecFloat.SFabs x) Sample.zero = false) /\
  SpecFloat.SFltb Sample.zero (c0 Sample.hpf) = true /\
  SpecFloat.valid_binary B64.prec B64.emax (c0 Sample.hpf) = true /\
  Forall (Forall (fun x => SpecFloat.SFleb Sample.zero x = true))
         Sample.Xf /\
  Forall (Forall (fun x => x = SpecFloat.S754_nan
                           \/ SpecFloat.SFltb Sample.zero x = true))
         (h (_update_beta (SF := B64.scalar SpecFloat.SFabs Sample.libm_id)
                          (SP := Sample.b64_special)
                          Sample.hpf Sample.Xf Sample.sf)) /\
  Forall (Forall (fun x => x = SpecFloat.S754_nan
                           \/ SpecFloat.SFltb Sample.zero x = true))
         (g (_update_beta (SF := B64.scalar SpecFloat.SFabs Sample.libm_id)
                          (SP := Sample.b64_special)
                          Sample.hpf Sample.Xf Sample.sf)).
Proof.
  assert (WS : well_shaped Sample.hpf 1 1 Sample.Xf Sample.sf) by shapes.
  assert (Hexp : forall x,
             SpecFloat.SFltb (SpecFloat.SFabs x) Sample.zero = false)
    by (intros [b|b| |b m e]; reflexivity).
  assert (Hc : SpecFloat.SFltb Sample.zero (c0 Sample.hpf) = true)
    by reflexivity.
  assert (Hv : SpecFloat.valid_binary B64.prec B64.emax (c0 Sample.hpf)
               = true) by reflexivity.
  assert (HX : Forall (Forall (fun x =>
                 SpecFloat.SFleb Sample.zero x = true)) Sample.Xf)
    by (repeat constructor).
  split; [exact WS|]. split; [exact Hexp|]. split; [exact Hc|].
  split; [exact Hv|]. split; [exact HX|].
  destruct (@update_beta_sign SpecFloat.SFabs Sample.libm_id
              Sample.b64_special Sample.hpf 1 1 Sample.Xf Sample.sf
              WS Hexp Hc Hv HX) as (_ & Hh & Hg).
  split; [exact Hh|]. apply Hg.
  intros E. vm_compute in E. discriminate E.
Defined.

(** The claimed strict positivity fails in binary64.  On two rows without
    counts and [c0 = 2^-1074] the prior term [c0 / V] rounds to zero, and
    no entry of the new [g] is above zero whatever the C library computes;
    [c0], the earlier [g] and [h] are positive, [X] has no entry below
    zero, and alpha, [l] and [u] are zero.  And with [l = 1024] and
    [u = 1] on a single count, a C library whose exponential is 1 at 0
    and overflows at 1024 gives [0 * inf]: the new [g] is a NaN. *)
Lemma update_beta_positive_counterexample :
  well_shaped Edge.hp_least 2 1 Edge.X_empty Edge.s_empty /\
  SpecFloat.SFltb Sample.zero (c0 Edge.hp_least) = true /\
  SpecFloat.valid_binary B64.prec B64.emax (c0 Edge.hp_least) = true /\
  Forall (Forall (fun x => SpecFloat.SFltb Sample.zero x = true))
         (g Edge.s_empty) /\
  Forall (Forall (fun x => SpecFloat.SFltb Sample.zero x = true))
         (h Edge.s_empty) /\
  Forall (Forall (fun x => SpecFloat.SFleb Sample.zero x = true)) Edge.X_empty /\
  (forall (libm_exp libm_log : SpecFloat.spec_float -> SpecFloat.spec_float)
          (SP : Special SpecFloat.spec_float),
   Forall (Forall (fun x => SpecFloat.SFltb Sample.zero x = false))
          (g (_update_beta (SF := B64.scalar libm_exp libm_log)
                           Edge.hp_least Edge.X_empty Edge.s_empty))) /\
  (forall (libm_exp libm_log : SpecFloat.spec_float -> SpecFloat.spec_float)
          (SP : Special SpecFloat.spec_float),
   libm_exp Sample.zero = Sample.one ->
   libm_exp Edge.big = SpecFloat.S754_infinity false ->
   g (_update_beta (SF := B64.scalar libm_exp libm_log)
                   Sample.hpf Sample.Xf Edge.s_big)
   = [[SpecFloat.S754_nan]]).
Proof.
  assert (WS : well_shaped Edge.hp_least 2 1 Edge.X_empty Edge.s_empty) by shapes.
  split; [exact WS|]. split; [reflexivity|]. split; [reflexivity|].
  split; [repeat constructor|]. split; [repeat constructor|].
  split; [repeat constructor|]. split.
  - intros libm_exp libm_log SP.
    rewrite update_beta_g.
    apply (forall_ent (SF := B64.scalar libm_exp libm_log)
             (fun x => SpecFloat.SFltb Sample.zero x = false)
             (shape_g' (SF := B64.scalar libm_exp libm_log) WS)).
    intros v k Hv Hk.
    rewrite (ent_g' (SF := B64.scalar libm_exp libm_log) WS) by auto.
    apply zero_or_nan_not_positive.
    assert (Q : fdiv (Scalar := B64.scalar libm_exp libm_log) (c0 Edge.hp_least)
                  (of_nat (Scalar := B64.scalar libm_exp libm_log) 2)
                = SpecFloat.S754_zero false) by (vm_compute; reflexivity).
    destruct (@beta_g_at_no_data libm_exp libm_log Edge.hp_least 2 1 Edge.X_empty
                Edge.s_empty v k) as [E|E].
    + intros d Hd. assert (d = 0) by lia. subst d.
      destruct v as [|[|v]]; [exact I | exact I | lia].
    + rewrite Q. discriminate.
    + rewrite E, Q. exact I.
    + rewrite E. exact I.
  - intros libm_exp libm_log SP H0 Hbig.
    assert (WS1 : well_shaped Sample.hpf 1 1 Sample.Xf Edge.s_big)
      by shapes.
    rewrite update_beta_g.
    rewrite (@mat_1x1 libm_exp libm_log _
               (shape_g' (SF := B64.scalar libm_exp libm_log) WS1)).
    rewrite (ent_g' (SF := B64.scalar libm_exp libm_log) WS1)
      by (cbn [K Sample.hpf]; lia).
    assert (T : theta_at (SF := B64.scalar libm_exp libm_log)
                  Sample.hpf Edge.s_big 0 0 = Edge.big)
      by (vm_compute; reflexivity).
    unfold beta_g_at, auxsum_at, Sum, fsum.
    cbn [seq map fold_left K Sample.hpf].
    rewrite T.
    change (ent (Elogb Edge.s_big) 0 0) with Sample.zero.
    cbn [fexp B64.scalar]. rewrite H0, Hbig.
    vm_compute. reflexivity.
Qed.

Lemma transform_checks_witness :
  o_Eb (self Sample.fresh) = None /\
  transform (SF := Sample.b64) (SP := Sample.b64_special) (SO := B64.ordered)
            Sample.mvn_draw Sample.random_draw Sample.Xf None Sample.fresh
  = (inr (ValueError "No beta initialized."), Sample.fresh).
Proof.
  split; [reflexivity|].
  exact (proj1 (@transform_checks _ _ Sample.b64 Sample.b64_special
                  B64.ordered Sample.gamma_draw Sample.mvn_draw
                  Sample.random_draw Sample.Xf None Sample.fresh)
               eq_refl).
Defined.

Lemma transform_fitted_raises_witness :
  o_Eb (self Sample.fitted) = Some (Eb Sample.sf) /\
  nrow (Eb Sample.sf) = nrow Sample.Xf /\
  transform (SF := Sample.b64) (SP := Sample.b64_special) (SO := B64.ordered)
            Sample.mvn_draw Sample.random_draw Sample.Xf None Sample.fitted
  = (inr (TypeError "_init_ql() missing 1 required positional argument"),
     Sample.fitted).
Proof.
  split; [reflexivity|]. split; [reflexivity|].
  exact (proj1 (@transform_fitted_raises _ _ Sample.b64 Sample.b64_special
                  B64.ordered Sample.gamma_draw Sample.mvn_draw
                  Sample.random_draw Sample.Xf None Sample.fitted)
               (Eb Sample.sf) eq_refl eq_refl).
Defined.

(** * Further results *)

(** ** The u update *)

Section Vector_products.
Context {F : Type} {SF : Scalar F}.

Lemma shape_colvec_mul (n p : nat) (a : list F) (A : list (list F)) :
  length a = n -> shape n p A -> shape n p (colvec_mul a A).
Proof.
  intros Ha [Hn Hr]. unfold colvec_mul. split.
  - rewrite length_zipw; lia.
  - rewrite <- Hn in Ha. clear Hn. revert a Ha.
    induction A as [|r A IH]; intros [|x a] Ha; simpl; auto;
      try discriminate.
    inversion Hr; subst. constructor.
    + rewrite length_map; reflexivity.
    + apply IH; auto.
Qed.

Lemma ent_colvec_mul (n p : nat) (a : list F) (A : list (list F))
  (i j : nat) :
  length a = n -> shape n p A -> i < n -> j < p ->
  ent (colvec_mul a A) i j = fmul (nth i a f0) (ent A i j).
Proof.
  intros Ha HA Hi Hj. unfold ent, colvec_mul.
  rewrite (nth_zipw (fun x r => map (fmul x) r) a A f0 [] [])
    by (destruct HA; lia).
  apply (nth_map_in (fmul (nth i a f0)) (nth i A []) f0 f0).
  rewrite (shape_row HA Hi); auto.
Qed.

Lemma shape_mul_rowvec (n p : nat) (A : list (list F)) (b : list F) :
  shape n p A -> length b = p -> shape n p (mul_rowvec A b).
Proof.
  intros [Hn Hr] Hb. unfold mul_rowvec. split.
  - rewrite length_map; auto.
  - rewrite Forall_map. eapply Forall_impl; [|exact Hr].
    intros r E; simpl in *. rewrite length_zipw; lia.
Qed.

Lemma ent_mul_rowvec (n p : nat) (A : list (list F)) (b : list F)
  (i j : nat) :
  shape n p A -> length b = p -> i < n -> j < p ->
  ent (mul_rowvec A b) i j = fmul (ent A i j) (nth j b f0).
Proof.
  intros HA Hb Hi Hj. unfold ent, mul_rowvec.
  rewrite (nth_map_in (fun r => zipw fmul r b) A [] [])
    by (destruct HA; lia).
  apply nth_zipw; [|lia]. rewrite (shape_row HA Hi); auto.
Qed.

End Vector_products.

Section Qu_update.
Context {F : Type} {SF : Scalar F}.
Variables (hp : hyper F) (V D : nat) (X : list (list F)) (s : params F).
Hypothesis WS : well_shaped hp V D X s.

Lemma ncol_X : ncol X = D.
Proof. destruct WS. eapply shape_ncol; eauto. Qed.

Lemma length_theta_col (d : nat) :
  length (vexp (col d (theta_of s))) = K hp.
Proof.
  unfold vexp. rewrite length_map. apply (length_col d (shape_theta WS)).
Qed.

Lemma nth_theta_col (k d : nat) :
  k < K hp -> d < D ->
  nth k (vexp (col d (theta_of s))) f0 = fexp (theta_at hp s k d).
Proof.
  intros Hk Hd. unfold vexp.
  rewrite (nth_map_in fexp _ f0 f0)
    by (rewrite (length_col d (shape_theta WS)); lia).
  rewrite (nth_col d (shape_theta WS) Hk).
  f_equal. apply (ent_theta WS); auto.
Qed.

Lemma length_auxsum1 (d : nat) :
  length (_auxsum1 s (col d (theta_of s))) = V.
Proof.
  unfold _auxsum1, dotv, mexp. rewrite !length_map. apply WS.
Qed.

Lemma nth_auxsum1 (v d : nat) :
  v < V -> d < D ->
  nth v (_auxsum1 s (col d (theta_of s))) f0 = auxsum_at hp s v d.
Proof.
  intros Hv Hd. unfold _auxsum1, dotv, auxsum_at.
  pose proof (shape_mexp (ws_Elogb WS)) as HE.
  rewrite (nth_map_in (fun a => vdot a (vexp (col d (theta_of s))))
                      (mexp (Elogb s)) [] f0)
    by (destruct HE; lia).
  rewrite (vdot_Sum (n := K hp)).
  - apply Sum_ext. intros k Hk.
    rewrite nth_theta_col by auto. f_equal.
    change (ent (mexp (Elogb s)) v k = fexp (ent (Elogb s) v k)).
    apply (ent_mexp (ws_Elogb WS)); auto.
  - apply (shape_row HE Hv).
  - apply length_theta_col.
Qed.

Lemma length_xauxsum1 (d : nat) :
  length (zipw fdiv (col d X) (_auxsum1 s (col d (theta_of s)))) = V.
Proof.
  rewrite length_zipw, length_auxsum1, (length_col d (ws_X WS)). lia.
Qed.

Lemma nth_xauxsum1 (v d : nat) :
  v < V -> d < D ->
  nth v (zipw fdiv (col d X) (_auxsum1 s (col d (theta_of s)))) f0
  = fdiv (ent X v d) (auxsum_at hp s v d).
Proof.
  intros Hv Hd.
  rewrite (nth_zipw fdiv _ _ f0 f0).
  - rewrite (nth_col d (ws_X WS) Hv), nth_auxsum1 by auto. reflexivity.
  - rewrite (length_col d (ws_X WS)); auto.
  - rewrite length_auxsum1; auto.
Qed.

(** The array [grad] of the column [d] before its last reassignment. *)
Let Gd (d : nat) : list (list F) :=
  mzip fsub
       (mul_rowvec
          (colvec_mul (zipw fdiv (col d X) (_auxsum1 s (col d (theta_of s))))
                      (mexp (Elogb s)))
          (vexp (col d (theta_of s))))
       (mul_rowvec (Eb s) (vexp (col d (theta_of s)))).

Lemma qu_row_unfold (d : nat) :
  qu_row hp X s d
  = zipw fadd (row d (u s))
         (svmul (step_size hp)
                (sum_axis01 (tsubv (bmul3 (Gd d) (l s)) (row d (u s))))).
Proof. reflexivity. Qed.

Lemma shape_Gd_left (d : nat) :
  shape V (K hp)
        (mul_rowvec
           (colvec_mul (zipw fdiv (col d X)
                             (_auxsum1 s (col d (theta_of s))))
                       (mexp (Elogb s)))
           (vexp (col d (theta_of s)))).
Proof.
  apply shape_mul_rowvec; [|apply length_theta_col].
  apply shape_colvec_mul; [apply length_xauxsum1|].
  apply shape_mexp, WS.
Qed.

Lemma shape_Gd_right (d : nat) :
  shape V (K hp) (mul_rowvec (Eb s) (vexp (col d (theta_of s)))).
Proof.
  apply shape_mul_rowvec; [apply WS | apply length_theta_col].
Qed.

Lemma shape_Gd (d : nat) : shape V (K hp) (Gd d).
Proof.
  unfold Gd. apply shape_mzip; [apply shape_Gd_left | apply shape_Gd_right].
Qed.

Lemma ent_Gd (d v k : nat) :
  d < D -> v < V -> k < K hp -> ent (Gd d) v k = qu_term hp X s d v k.
Proof.
  intros Hd Hv Hk. unfold Gd, qu_term.
  rewrite (ent_mzip fsub (shape_Gd_left d) (shape_Gd_right d)) by auto.
  rewrite (ent_mul_rowvec (n := V) (p := K hp)); auto.
  2:{ apply shape_colvec_mul; [apply length_xauxsum1|].
      apply shape_mexp, WS. }
  2:{ apply length_theta_col. }
  rewrite (ent_colvec_mul (n := V) (p := K hp)); auto.
  2:{ apply length_xauxsum1. }
  2:{ apply shape_mexp, WS. }
  rewrite (ent_mul_rowvec (n := V) (p := K hp)); auto.
  2:{ apply WS. }
  2:{ apply length_theta_col. }
  rewrite nth_xauxsum1, nth_theta_col by auto.
  rewrite (ent_mexp (ws_Elogb WS)) by auto. reflexivity.
Qed.

Lemma qu_tensor (d : nat) :
  tsubv (bmul3 (Gd d) (l s)) (row d (u s))
  = map (fun v =>
           map (fun k =>
                  zipw fsub (map (fmul (ent (Gd d) v k)) (nth k (l s) []))
                       (row d (u s)))
               (seq 0 (K hp)))
        (seq 0 V).
Proof.
  rewrite (@bmul3_tab _ _ V (K hp) (Gd d) (l s) (shape_Gd d)) by apply WS.
  apply tsubv_tab.
Qed.

Lemma length_qu_plane (k d : nat) (x : F) :
  k < K hp -> d < D ->
  length (zipw fsub (map (fmul x) (nth k (l s) [])) (row d (u s))) = m hp.
Proof.
  intros Hk Hd. destruct WS.
  rewrite length_zipw, length_map. unfold row.
  rewrite (shape_row ws_u0 Hd), (shape_row ws_l0 Hk). lia.
Qed.

Lemma nth_qu_plane (k d j : nat) (x : F) :
  k < K hp -> d < D -> j < m hp ->
  nth j (zipw fsub (map (fmul x) (nth k (l s) [])) (row d (u s))) f0
  = fsub (fmul x (ent (l s) k j)) (ent (u s) d j).
Proof.
  intros Hk Hd Hj. destruct WS.
  rewrite (nth_zipw fsub _ _ f0 f0).
  - rewrite (nth_map_in (fmul x) _ f0 f0)
      by (rewrite (shape_row ws_l0 Hk); lia).
    reflexivity.
  - rewrite length_map, (shape_row ws_l0 Hk); lia.
  - unfold row. rewrite (shape_row ws_u0 Hd); lia.
Qed.

Lemma length_qu_grad (d : nat) :
  d < D ->
  length (sum_axis01 (tsubv (bmul3 (Gd d) (l s)) (row d (u s)))) = m hp.
Proof.
  intros Hd. rewrite qu_tensor. destruct WS.
  apply length_sum_axis01_tab; auto.
  apply length_qu_plane; auto.
Qed.

Lemma nth_qu_grad (d j : nat) :
  d < D -> j < m hp ->
  nth j (sum_axis01 (tsubv (bmul3 (Gd d) (l s)) (row d (u s)))) f0
  = qu_grad_at hp V X s d j.
Proof.
  intros Hd Hj. rewrite qu_tensor. destruct WS.
  rewrite (nth_sum_axis01_tab (q := m hp)); auto.
  - apply Sum2_ext. intros v k Hv Hk.
    rewrite nth_qu_plane by auto.
    rewrite ent_Gd by auto. reflexivity.
  - apply length_qu_plane; auto.
Qed.

Lemma length_qu_row (d : nat) : d < D -> length (qu_row hp X s d) = m hp.
Proof.
  intros Hd. rewrite qu_row_unfold, length_zipw.
  unfold svmul. rewrite length_map, length_qu_grad by auto.
  unfold row. rewrite (shape_row (ws_u WS) Hd). lia.
Qed.

Lemma nth_qu_row (d j : nat) :
  d < D -> j < m hp ->
  nth j (qu_row hp X s d) f0
  = fadd (ent (u s) d j)
         (fmul (step_size hp) (qu_grad_at hp V X s d j)).
Proof.
  intros Hd Hj. rewrite qu_row_unfold.
  rewrite (nth_zipw fadd _ _ f0 f0).
  - unfold svmul. rewrite (nth_map_in (fmul (step_size hp)) _ f0 f0)
      by (rewrite length_qu_grad; auto).
    rewrite nth_qu_grad by auto. reflexivity.
  - unfold row. rewrite (shape_row (ws_u WS) Hd); lia.
  - unfold svmul. rewrite length_map, length_qu_grad; auto.
Qed.

Lemma qu_step_rows :
  u (qu_step hp X s) = map (qu_row hp X s) (seq 0 D).
Proof.
  simpl. rewrite ncol_X. apply fold_set_row_all.
  rewrite length_zeros. apply (ws_u WS).
Qed.

Lemma shape_qu_step : shape D (m hp) (u (qu_step hp X s)).
Proof.
  rewrite qu_step_rows. split.
  - rewrite length_map, length_seq; auto.
  - rewrite Forall_map, Forall_forall. intros d Hd.
    apply in_seq in Hd. apply length_qu_row; lia.
Qed.

Lemma ent_qu_step (d j : nat) :
  d < D -> j < m hp ->
  ent (u (qu_step hp X s)) d j
  = fadd (ent (u s) d j)
         (fmul (step_size hp) (qu_grad_at hp V X s d j)).
Proof.
  intros Hd Hj. unfold ent. rewrite qu_step_rows.
  rewrite nth_map_seq by auto. apply nth_qu_row; auto.
Qed.

Lemma well_shaped_qu_step : well_shaped hp V D X (qu_step hp X s).
Proof.
  destruct WS. constructor; auto.
  apply shape_qu_step.
Qed.

End Qu_update.

(** ** What an update leaves alone, and the shapes it keeps *)

Section Frames.
Context {F : Type} {SF : Scalar F}.

Lemma only_l_refl (s : params F) : only_l s s.
Proof. repeat split. Qed.

Lemma only_l_trans (s1 s2 s3 : params F) :
  only_l s1 s2 -> only_l s2 s3 -> only_l s1 s3.
Proof.
  intros (A1 & A2 & A3 & A4 & A5 & A6) (B1 & B2 & B3 & B4 & B5 & B6).
  repeat split; congruence.
Qed.

Lemma only_u_refl (s : params F) : only_u s s.
Proof. repeat split. Qed.

Lemma only_u_trans (s1 s2 s3 : params F) :
  only_u s1 s2 -> only_u s2 s3 -> only_u s1 s3.
Proof.
  intros (A1 & A2 & A3 & A4 & A5 & A6) (B1 & B2 & B3 & B4 & B5 & B6).
  repeat split; congruence.
Qed.

Lemma only_l_iter (hp : hyper F) (X : list (list F)) (n : nat)
  (s : params F) :
  only_l s (Nat.iter n (ql_step hp X) s).
Proof.
  induction n as [|n IH]; simpl; [apply only_l_refl|].
  eapply only_l_trans; [exact IH|]. repeat split.
Qed.

Lemma only_u_iter (hp : hyper F) (X : list (list F)) (n : nat)
  (s : params F) :
  only_u s (Nat.iter n (qu_step hp X) s).
Proof.
  induction n as [|n IH]; simpl; [apply only_u_refl|].
  eapply only_u_trans; [exact IH|]. repeat split.
Qed.

Variables (hp : hyper F) (V D : nat) (X : list (list F)).

Lemma well_shaped_update_alpha (s : params F) :
  well_shaped hp V D X s -> well_shaped hp V D X (_update_alpha X s).
Proof.
  intros WS. pose proof (length_update_alpha WS) as L.
  destruct WS. constructor; auto.
Qed.

Lemma well_shaped_update_ql (s : params F) :
  well_shaped hp V D X s -> well_shaped hp V D X (_update_ql hp X s).
Proof.
  intros WS. unfold _update_ql.
  induction (num_steps hp) as [|n IH]; simpl; auto.
  apply well_shaped_ql_step; auto.
Qed.

Lemma well_shaped_update_qu (s : params F) :
  well_shaped hp V D X s -> well_shaped hp V D X (_update_qu hp X s).
Proof.
  intros WS. unfold _update_qu.
  induction (num_steps hp) as [|n IH]; simpl; auto.
  apply well_shaped_qu_step; auto.
Qed.

Context {SP : Special F}.

Lemma shape_Eb_update_beta (s : params F) :
  well_shaped hp V D X s ->
  shape V (K hp) (Eb (_update_beta hp X s)) /\
  shape V (K hp) (Elogb (_update_beta hp X s)).
Proof.
  intros WS.
  pose proof (shape_g' WS) as Hg. pose proof (shape_h' WS) as Hh.
  split.
  - change (Eb (_update_beta hp X s))
      with (mzip fdiv (g (_update_beta hp X s)) (h (_update_beta hp X s))).
    rewrite update_beta_g, update_beta_h. apply shape_mzip; auto.
  - change (Elogb (_update_beta hp X s))
      with (mzip fsub (map (map psi) (g (_update_beta hp X s)))
                      (mlog (h (_update_beta hp X s)))).
    rewrite update_beta_g, update_beta_h.
    apply shape_mzip; [apply shape_map; auto|].
    unfold mlog. apply shape_map; auto.
Qed.

Lemma well_shaped_update_beta (s : params F) :
  well_shaped hp V D X s -> well_shaped hp V D X (_update_beta hp X s).
Proof.
  intros WS. destruct (shape_Eb_update_beta WS) as [HE HL].
  destruct WS. constructor; auto.
Qed.

(** [g] and [h] have the shape of [Eb]. *)
Lemma gh_shaped_cycle (ub : bool) (s : params F) :
  well_shaped hp V D X s ->
  shape V (K hp) (g s) /\ shape V (K hp) (h s) ->
  shape V (K hp) (g (cycle hp X ub s)) /\
  shape V (K hp) (h (cycle hp X ub s)).
Proof.
  intros WS [Hg Hh]. unfold cycle.
  assert (WS3 : well_shaped hp V D X
                  (_update_qu hp X (_update_ql hp X (_update_alpha X s)))).
  { apply well_shaped_update_qu, well_shaped_update_ql,
      well_shaped_update_alpha, WS. }
  destruct ub.
  - rewrite update_beta_g, update_beta_h.
    split; [apply (shape_g' WS3) | apply (shape_h' WS3)].
  - pose proof (same_beta_update_qu hp X
                  (_update_ql hp X (_update_alpha X s))) as (A1 & A2 & _).
    pose proof (same_beta_update_ql hp X (_update_alpha X s))
      as (B1 & B2 & _).
    rewrite A1, A2, B1, B2. simpl. split; assumption.
Qed.

Lemma well_shaped_cycle (ub : bool) (s : params F) :
  well_shaped hp V D X s -> well_shaped hp V D X (cycle hp X ub s).
Proof.
  intros WS. unfold cycle.
  assert (WS3 : well_shaped hp V D X
                  (_update_qu hp X (_update_ql hp X (_update_alpha X s)))).
  { apply well_shaped_update_qu, well_shaped_update_ql,
      well_shaped_update_alpha, WS. }
  destruct ub; [apply well_shaped_update_beta|]; exact WS3.
Qed.

Context {SO : Ordered F}.

Lemma shaped_update_from (ub : bool) (n : nat) (e : F) (s : params F) :
  well_shaped hp V D X s ->
  shape V (K hp) (g s) /\ shape V (K hp) (h s) ->
  well_shaped hp V D X (fst (update_from hp X ub n e s)) /\
  shape V (K hp) (g (fst (update_from hp X ub n e s))) /\
  shape V (K hp) (h (fst (update_from hp X ub n e s))).
Proof.
  revert e s. induction n as [|n IH]; intros e s WS GH; simpl.
  - split; [exact WS | exact GH].
  - pose proof (well_shaped_cycle ub WS) as WS'.
    pose proof (gh_shaped_cycle ub WS GH) as GH'.
    destruct (converged hp e (_bound hp X (cycle hp X ub s))); simpl.
    + split; [exact WS' | exact GH'].
    + specialize (IH (_bound hp X (cycle hp X ub s)) (cycle hp X ub s)
                     WS' GH').
      destruct (update_from hp X ub n (_bound hp X (cycle hp X ub s))
                            (cycle hp X ub s)) as [r c].
      exact IH.
Qed.

Lemma same_beta_update_from (n : nat) (e : F) (s : params F) :
  same_beta s (fst (update_from hp X false n e s)).
Proof.
  revert e s. induction n as [|n IH]; intros e s;
    cbn -[cycle _bound converged].
  - apply same_beta_refl.
  - assert (C : same_beta s (cycle hp X false s)).
    { unfold cycle.
      eapply same_beta_trans; [apply same_beta_update_alpha|].
      eapply same_beta_trans; [apply same_beta_update_ql|].
      apply same_beta_update_qu. }
    destruct (converged hp e (_bound hp X (cycle hp X false s))).
    + exact C.
    + specialize (IH (_bound hp X (cycle hp X false s))
                     (cycle hp X false s)).
      destruct (update_from hp X false n (_bound hp X (cycle hp X false s))
                            (cycle hp X false s)) as [r c].
      eapply same_beta_trans; [exact C | exact IH].
Qed.

End Frames.

(** X1.  At every inner step of [_update_qu] on well-shaped arrays, the
    rows of the new [u] are all computed from the [u] the step started with,
    and the component [j] of the new row [d] is [u[d, j] + step_size * grad],
    where [grad] is the sum over all (v, k) of [((X[v, d] / auxsum[v, d]) *
    exp(Elogb[v, k]) * exp(theta[k, d]) - Eb[v, k] * exp(theta[k, d])) *
    l[k, j] - u[d, j]].  The arrays stay well shaped from step to step. *)
Theorem update_qu_gradient {F : Type} {SF : Scalar F}
  (hp : hyper F) (V D : nat) (X : list (list F)) (s : params F) :
  well_shaped hp V D X s ->
  forall i,
    let si := Nat.iter i (qu_step hp X) s in
    well_shaped hp V D X si /\
    u (qu_step hp X si) = map (qu_row hp X si) (seq 0 D) /\
    forall d j, d < D -> j < m hp ->
      ent (u (qu_step hp X si)) d j
      = fadd (ent (u si) d j)
             (fmul (step_size hp) (qu_grad_at hp V X si d j)).
Proof.
  intros WS i.
  assert (WSi : well_shaped hp V D X (Nat.iter i (qu_step hp X) s)).
  { induction i as [|i IH]; simpl; auto.
    apply well_shaped_qu_step; auto. }
  split; [exact WSi|]. split; [apply (qu_step_rows WSi)|].
  intros d j Hd Hj. apply (ent_qu_step WSi); auto.
Qed.

Lemma update_qu_gradient_witness :
  well_shaped (Sample.hp 1) 1 2 Sample.X2 Sample.s2 /\
  u (qu_step (Sample.hp 1) Sample.X2 Sample.s2)
  = map (qu_row (Sample.hp 1) Sample.X2 Sample.s2) (seq 0 2).
Proof.
  assert (WS : well_shaped (Sample.hp 1) 1 2 Sample.X2 Sample.s2) by shapes.
  split; [exact WS|].
  exact (proj1 (proj2 (update_qu_gradient WS 0))).
Defined.

(** X2.  [_update_ql] changes [l] only and [_update_qu] changes [u] only,
    whatever the arrays and the number of inner steps are; with
    [num_steps = 0] they change nothing. *)
Theorem updates_touch_one_block {F : Type} {SF : Scalar F}
  (hp : hyper F) (X : list (list F)) (s : params F) :
  only_l s (_update_ql hp X s) /\
  only_u s (_update_qu hp X s) /\
  (num_steps hp = 0 -> _update_ql hp X s = s /\ _update_qu hp X s = s).
Proof.
  split; [apply only_l_iter|]. split; [apply only_u_iter|].
  intros E. unfold _update_ql, _update_qu. rewrite E. split; reflexivity.
Qed.

(** X3.  [_update] keeps the shapes: on an input of [V] rows and [D]
    columns, arrays that are well shaped, with [g] and [h] of shape (V, K),
    are so again after the loop, with or without the beta update and
    whenever the loop stops. *)
Theorem update_keeps_shapes {F : Type} {SF : Scalar F} {SP : Special F}
  {SO : Ordered F}
  (hp : hyper F) (V D : nat) (X : list (list F)) (ub : bool)
  (s : params F) :
  well_shaped hp V D X s ->
  shape V (K hp) (g s) -> shape V (K hp) (h s) ->
  let r := fst (_update hp X ub s) in
  well_shaped hp V D X r /\
  shape V (K hp) (g r) /\ shape V (K hp) (h r).
Proof.
  intros WS Hg Hh r. subst r. unfold _update.
  apply shaped_update_from; auto.
Qed.

Lemma update_keeps_shapes_witness :
  well_shaped Sample.hpf 1 1 Sample.Xf Sample.sf /\
  shape 1 (K Sample.hpf) (g Sample.sf) /\
  shape 1 (K Sample.hpf) (h Sample.sf) /\
  well_shaped Sample.hpf 1 1 Sample.Xf
    (fst (_update (SF := Sample.b64) (SP := Sample.b64_special)
                  (SO := B64.ordered) Sample.hpf Sample.Xf true Sample.sf)).
Proof.
  assert (WS : well_shaped Sample.hpf 1 1 Sample.Xf Sample.sf) by shapes.
  assert (Hg : shape 1 (K Sample.hpf) (g Sample.sf))
    by (split; [reflexivity | repeat constructor]).
  assert (Hh : shape 1 (K Sample.hpf) (h Sample.sf))
    by (split; [reflexivity | repeat constructor]).
  split; [exact WS|]. split; [exact Hg|]. split; [exact Hh|].
  exact (proj1 (@update_keeps_shapes _ Sample.b64 Sample.b64_special
                  B64.ordered Sample.hpf 1 1 Sample.Xf true Sample.sf
                  WS Hg Hh)).
Defined.

(** X4.  With [update_beta=False], [_update] returns [g], [h], [Eb] and
    [Elogb] exactly as it received them, whatever the number of passes. *)
Theorem update_without_beta {F : Type} {SF : Scalar F} {SP : Special F}
  {SO : Ordered F}
  (hp : hyper F) (X : list (list F)) (s : params F) :
  same_beta s (fst (_update hp X false s)).
Proof. unfold _update. apply same_beta_update_from. Qed.

(** ** The bound *)

Section Bound.
Context {F : Type} {SF : Scalar F} {SP : Special F}.

Lemma mat_tab (n p : nat) (A : list (list F)) :
  shape n p A ->
  A = map (fun i => map (fun j => ent A i j) (seq 0 p)) (seq 0 n).
Proof.
  intros HA. apply (nth_ext _ _ [] []).
  - rewrite length_map, length_seq. apply HA.
  - intros i Hi. assert (Hin : i < n) by (destruct HA; lia).
    rewrite nth_map_seq by auto. apply (row_ent HA Hin).
Qed.

Lemma msum_Sum2 (n p : nat) (A : list (list F)) :
  shape n p A -> msum A = Sum2 n p (ent A).
Proof.
  intros HA. unfold msum, Sum2.
  rewrite (mat_tab HA) at 1. rewrite <- flat_map_concat_map. reflexivity.
Qed.

Lemma gamma_term_closed (a b : F) (sh rate Ex Elogx : list (list F))
  (n p : nat) :
  shape n p sh -> shape n p rate -> shape n p Ex -> shape n p Elogx ->
  _gamma_term a b sh rate Ex Elogx = gamma_term_at a b sh rate Ex Elogx n p.
Proof.
  intros Hs Hr Hx Hl. unfold _gamma_term, gamma_term_at, mlog.
  assert (H1 : shape n p (mzip fmul (map (map (fsub a)) sh) Elogx))
    by (apply shape_mzip; [apply shape_map|]; auto).
  assert (H2 : shape n p (mzip fmul (map (map (fsub b)) rate) Ex))
    by (apply shape_mzip; [apply shape_map|]; auto).
  assert (H3 : shape n p (map (map gammaln) sh)) by (apply shape_map; auto).
  assert (H4 : shape n p (mzip fmul sh (map (map flog) rate)))
    by (apply shape_mzip; [|apply shape_map]; auto).
  pose proof (shape_mzip fsub H1 H2) as H12.
  pose proof (shape_mzip fadd H12 H3) as H123.
  rewrite (msum_Sum2 (shape_mzip fsub H123 H4)).
  apply Sum2_ext. intros v k Hv Hk.
  rewrite (ent_mzip fsub H123 H4) by auto.
  rewrite (ent_mzip fadd H12 H3) by auto.
  rewrite (ent_mzip fsub H1 H2) by auto.
  rewrite (ent_mzip fmul (shape_map (fsub a) Hs) Hl) by auto.
  rewrite (ent_mzip fmul (shape_map (fsub b) Hr) Hx) by auto.
  rewrite (ent_mzip fmul Hs (shape_map flog Hr)) by auto.
  rewrite (ent_map (fsub a) Hs), (ent_map (fsub b) Hr),
    (ent_map gammaln Hs) by auto.
  rewrite (ent_map flog Hr) by auto. reflexivity.
Qed.

Lemma msum_log_pdf (n p : nat) (sd : F) (A : list (list F)) :
  shape n p A ->
  msum (mlog (map (map (fun x => norm_pdf x f0 sd)) A))
  = Sum2 n p (fun i j => flog (norm_pdf (ent A i j) f0 sd)).
Proof.
  intros HA.
  pose proof (shape_map (fun x => norm_pdf x f0 sd) HA) as H1.
  unfold mlog. rewrite (msum_Sum2 (shape_map flog H1)).
  apply Sum2_ext. intros i j Hi Hj.
  rewrite (ent_map flog H1) by auto.
  rewrite (ent_map (fun x => norm_pdf x f0 sd) HA) by auto. reflexivity.
Qed.

Variables (hp : hyper F) (V D : nat) (X : list (list F)) (s : params F).
Hypothesis WS : well_shaped hp V D X s.

Lemma data_term_closed :
  msum (mzip fsub (mzip fmul X (mlog (_auxsum s (theta_of s))))
                  (dot (Eb s) (theta_of s)))
  = Sum2 V D
         (fun v d =>
            fsub (fmul (ent X v d) (flog (auxsum_at hp s v d)))
                 (Sum (K hp)
                      (fun k => fmul (ent (Eb s) v k)
                                     (theta_at hp s k d)))).
Proof.
  pose proof (shape_auxsum WS) as HA.
  pose proof (shape_theta WS) as HT.
  assert (HL : shape V D (mlog (_auxsum s (theta_of s))))
    by (apply shape_map; auto).
  assert (H1 : shape V D (mzip fmul X (mlog (_auxsum s (theta_of s)))))
    by (apply shape_mzip; [apply WS | auto]).
  assert (H2 : shape V D (dot (Eb s) (theta_of s))).
  { apply (shape_dot (p := K hp)); auto; apply WS. }
  rewrite (msum_Sum2 (shape_mzip fsub H1 H2)).
  apply Sum2_ext. intros v d Hv Hd.
  rewrite (ent_mzip fsub H1 H2) by auto.
  rewrite (ent_mzip fmul (ws_X WS) HL) by auto.
  unfold mlog. rewrite (ent_map flog HA) by auto.
  rewrite (ent_auxsum WS) by auto. f_equal.
  rewrite (ent_dot (n := V) (p := K hp) (q := D)); auto; try apply WS.
  apply Sum_ext. intros k Hk. rewrite (ent_theta WS) by auto. reflexivity.
Qed.

Lemma bound_closed :
  shape V (K hp) (g s) -> shape V (K hp) (h s) ->
  _bound hp X s = bound_at hp V D X s.
Proof.
  intros Hg Hh. unfold _bound, bound_at.
  rewrite data_term_closed, (nrow_X WS).
  rewrite (gamma_term_closed (c0 hp) (fdiv (c0 hp) (of_nat V))
             Hg Hh (ws_Eb WS) (ws_Elogb WS)).
  rewrite (msum_log_pdf (sigma hp) (ws_l WS)).
  rewrite (msum_log_pdf (of_nat 1) (ws_u WS)).
  reflexivity.
Qed.

End Bound.

(** X5.  On well-shaped arrays, with [g] and [h] of shape (V, K), [_bound]
    is the sum over (v, d) of [X[v, d] * log(auxsum[v, d]) - sum_k Eb[v, k] *
    theta[k, d]], plus the sum over (v, k) of [(c0 - g) * Elogb - (c0 / V -
    h) * Eb + gammaln(g) - g * log(h)], plus the sums of the logarithms of
    the normal densities of the entries of [l] (scale sigma) and of [u]
    (scale 1). *)
Theorem bound_closed_form {F : Type} {SF : Scalar F} {SP : Special F}
  (hp : hyper F) (V D : nat) (X : list (list F)) (s : params F) :
  well_shaped hp V D X s ->
  shape V (K hp) (g s) -> shape V (K hp) (h s) ->
  _bound hp X s = bound_at hp V D X s.
Proof. intros WS Hg Hh. apply (bound_closed WS Hg Hh). Qed.

Lemma bound_closed_form_witness :
  well_shaped (Sample.hp 1) 1 1 Sample.X1 Sample.s1 /\
  shape 1 (K (Sample.hp 1)) (g Sample.s1) /\
  shape 1 (K (Sample.hp 1)) (h Sample.s1) /\
  _bound (SP := Sample.special) (Sample.hp 1) Sample.X1 Sample.s1
  = bound_at (SP := Sample.special) (Sample.hp 1) 1 1 Sample.X1 Sample.s1.
Proof.
  assert (WS : well_shaped (Sample.hp 1) 1 1 Sample.X1 Sample.s1) by shapes.
  assert (Hg : shape 1 (K (Sample.hp 1)) (g Sample.s1))
    by (split; [reflexivity | repeat constructor]).
  assert (Hh : shape 1 (K (Sample.hp 1)) (h Sample.s1))
    by (split; [reflexivity | repeat constructor]).
  split; [exact WS|]. split; [exact Hg|]. split; [exact Hh|].
  exact (bound_closed_form (SP := Sample.special) WS Hg Hh).
Defined.

(** ** A bound that is not a number *)

Lemma b64_nan_new (e tol : SpecFloat.spec_float) :
  SpecFloat.SFltb
    (SpecFloat.SFdiv B64.prec B64.emax
       (SpecFloat.SFsub B64.prec B64.emax SpecFloat.S754_nan e)
       (SpecFloat.SFabs e))
    tol = false.
Proof. destruct e as [se|se| |se me ee]; reflexivity. Qed.

Lemma b64_nan_old (x tol : SpecFloat.spec_float) :
  SpecFloat.SFltb
    (SpecFloat.SFdiv B64.prec B64.emax
       (SpecFloat.SFsub B64.prec B64.emax x SpecFloat.S754_nan)
       (SpecFloat.SFabs SpecFloat.S754_nan))
    tol = false.
Proof. destruct x as [sx|sx| |sx mx ex]; reflexivity. Qed.

(** X6.  [_update] in binary64 arithmetic: a pass whose bound is a NaN does
    not stop the loop, and neither does the pass after it, whatever the
    tolerance; so when the bound is a NaN in every pass the loop makes all
    its [max_iters] passes. *)
Theorem nan_bound_never_stops
  (libm_exp libm_log : SpecFloat.spec_float -> SpecFloat.spec_float)
  (SP : Special SpecFloat.spec_float)
  (hp : hyper SpecFloat.spec_float) (X : list (list SpecFloat.spec_float))
  (ub : bool) (s : params SpecFloat.spec_float) :
  let SF := B64.scalar libm_exp libm_log in
  let SO := B64.ordered in
  (forall t,
     _bound hp X (state_after hp X ub s (S t)) = SpecFloat.S754_nan ->
     stops_in_pass hp X ub s t = false /\
     stops_in_pass hp X ub s (S t) = false) /\
  ((forall t, t < max_iters hp ->
      _bound hp X (state_after hp X ub s (S t)) = SpecFloat.S754_nan) ->
   snd (_update hp X ub s) = max_iters hp).
Proof.
  intros SF SO.
  assert (Pass : forall t,
             _bound hp X (state_after hp X ub s (S t)) = SpecFloat.S754_nan ->
             stops_in_pass hp X ub s t = false /\
             stops_in_pass hp X ub s (S t) = false).
  { intros t E. split.
    - unfold stops_in_pass, converged. rewrite E. apply b64_nan_new.
    - unfold stops_in_pass, converged.
      change (elbo_before hp X ub s (S t))
        with (_bound hp X (state_after hp X ub s (S t))).
      rewrite E. apply b64_nan_old. }
  split; [exact Pass|].
  intros All.
  pose proof (update_from_passes hp X ub s (max_iters hp) 0) as P.
  change (update_from hp X ub (max_iters hp) (elbo_before hp X ub s 0)
                      (state_after hp X ub s 0))
    with (_update hp X ub s) in P.
  destruct (_update hp X ub s) as [r c].
  destruct P as (_ & Hc & Hc1 & _ & Hstop). simpl.
  destruct (Nat.eq_dec c (max_iters hp)) as [E|Hne]; [exact E|].
  assert (Hlt : c < max_iters hp) by lia.
  specialize (Hstop Hlt). specialize (Hc1 ltac:(lia)).
  replace (0 + c - 1) with (c - 1) in Hstop by lia.
  destruct (Pass (c - 1)) as [H0 _].
  { apply All. lia. }
  rewrite H0 in Hstop. discriminate.
Qed.

Lemma nan_bound_never_stops_witness :
  (forall t, t < max_iters Sample.hpf ->
     _bound (SF := Sample.b64) (SP := Sample.b64_special) Sample.hpf
            Sample.Xnan
            (state_after (SF := Sample.b64) (SP := Sample.b64_special)
                         Sample.hpf Sample.Xnan true Sample.sf (S t))
     = SpecFloat.S754_nan) /\
  snd (_update (SF := Sample.b64) (SP := Sample.b64_special)
               (SO := B64.ordered) Sample.hpf Sample.Xnan true Sample.sf)
  = 1.
Proof.
  assert (H : forall t, t < max_iters Sample.hpf ->
     _bound (SF := Sample.b64) (SP := Sample.b64_special) Sample.hpf
            Sample.Xnan
            (state_after (SF := Sample.b64) (SP := Sample.b64_special)
                         Sample.hpf Sample.Xnan true Sample.sf (S t))
     = SpecFloat.S754_nan).
  { intros t Ht. assert (E : t = 0) by (simpl in Ht; lia). subst t.
    vm_compute. reflexivity. }
  split; [exact H|].
  exact (proj2 (nan_bound_never_stops Sample.libm_id Sample.libm_id
                  Sample.b64_special Sample.hpf Sample.Xnan true Sample.sf)
               H).
Defined.

(** ** [fit] *)

Section Fit.
Context {F G : Type} {SF : Scalar F} {SP : Special F} {SO : Ordered F}.
Variable rand_gamma : F -> F -> G -> F * G.
Variable rand_mvn : list F -> list (list F) -> G -> list F * G.
Variable rand_random : G -> F * G.






End Fit.

Section Fit_shapes.
Context {F G : Type} {SF : Scalar F} {SP : Special F} {SO : Ordered F}.
Variable rand_gamma : F -> F -> G -> F * G.
Variable rand_mvn : list F -> list (list F) -> G -> list F * G.
Variable rand_random : G -> F * G.



Hypothesis mvn_length :
  forall mean cov r0, length (fst (rand_mvn mean cov r0)) = length mean.



End Fit_shapes.





(** ** Signs in binary64 *)

(** X10.  [_auxsum] in binary64 arithmetic, for a C library whose
    exponential never returns a number below zero, on well-shaped arrays:
    no entry of [_auxsum(theta)] is below zero, and, when no entry of [X]
    is, no entry of [X / _auxsum(theta)] is either (an entry can be a
    NaN). *)
Theorem auxsum_never_negative
  (libm_exp libm_log : SpecFloat.spec_float -> SpecFloat.spec_float)
  (hp : hyper SpecFloat.spec_float) (V D : nat)
  (X : list (list SpecFloat.spec_float)) (s : params SpecFloat.spec_float) :
  let SF := B64.scalar libm_exp libm_log in
  let zero := SpecFloat.S754_zero false in
  well_shaped hp V D X s ->
  (forall x, SpecFloat.SFltb (libm_exp x) zero = false) ->
  Forall (Forall (fun x => SpecFloat.SFltb x zero = false))
         (_auxsum s (theta_of s)) /\
  (Forall (Forall (fun x => SpecFloat.SFleb zero x = true)) X ->
   Forall (Forall (fun x => SpecFloat.SFltb x zero = false))
          (mzip fdiv X (_auxsum s (theta_of s)))).
Proof.
  intros SF zero WS Hexp.
  assert (Hexp' : forall x, Sign.not_negative (libm_exp x))
    by (intros x; apply not_negative_ltb, Hexp).
  split.
  - apply (forall_ent (fun x => SpecFloat.SFltb x zero = false)
             (shape_auxsum WS)).
    intros v d Hv Hd. rewrite (ent_auxsum WS) by auto.
    apply not_negative_ltb, unsigned_not_negative.
    apply (@auxsum_at_unsigned libm_exp libm_log hp s Hexp').
  - intros HX.
    apply (forall_ent (fun x => SpecFloat.SFltb x zero = false)
             (shape_xauxsum WS)).
    intros v d Hv Hd. rewrite (ent_xauxsum WS) by auto.
    apply not_negative_ltb. apply SFdiv_not_negative.
    + apply leb_not_negative.
      apply (@ent_forall libm_exp libm_log V D
               (fun x => SpecFloat.SFleb zero x = true) X v d
               (ws_X WS) HX Hv Hd).
    + apply (@auxsum_at_unsigned libm_exp libm_log hp s Hexp').
Qed.

Lemma auxsum_never_negative_witness :
  well_shaped Sample.hpf 1 1 Sample.Xf Sample.sf /\
  (forall x, SpecFloat.SFltb (SpecFloat.SFabs x) Sample.zero = false) /\
  Forall (Forall (fun x => SpecFloat.SFltb x Sample.zero = false))
         (_auxsum (SF := B64.scalar SpecFloat.SFabs Sample.libm_id)
                  Sample.sf
                  (theta_of (SF := B64.scalar SpecFloat.SFabs Sample.libm_id)
                            Sample.sf)).
Proof.
  assert (WS : well_shaped Sample.hpf 1 1 Sample.Xf Sample.sf) by shapes.
  assert (Hexp : forall x,
             SpecFloat.SFltb (SpecFloat.SFabs x) Sample.zero = false)
    by (intros [b|b| |b m e]; reflexivity).
  split; [exact WS|]. split; [exact Hexp|].
  exact (proj1 (@auxsum_never_negative SpecFloat.SFabs Sample.libm_id
                  Sample.hpf 1 1 Sample.Xf Sample.sf WS Hexp)).
Defined.

(** X11.  [_update_beta] in binary64 arithmetic, for a C library whose
    exponential never returns a number below zero, [c0 > 0], well-shaped
    arrays and an input [X] whose entries are all [>= 0]: no entry of the
    [Eb] it stores is below zero (an entry can be a NaN). *)
Theorem update_beta_Eb_never_negative
  (libm_exp libm_log : SpecFloat.spec_float -> SpecFloat.spec_float)
  (SP : Special SpecFloat.spec_float)
  (hp : hyper SpecFloat.spec_float) (V D : nat)
  (X : list (list SpecFloat.spec_float)) (s : params SpecFloat.spec_float) :
  let SF := B64.scalar libm_exp libm_log in
  let zero := SpecFloat.S754_zero false in
  well_shaped hp V D X s ->
  (forall x, SpecFloat.SFltb (libm_exp x) zero = false) ->
  SpecFloat.SFltb zero (c0 hp) = true ->
  Forall (Forall (fun x => SpecFloat.SFleb zero x = true)) X ->
  Forall (Forall (fun x => SpecFloat.SFltb x zero = false))
         (Eb (_update_beta hp X s)).
Proof.
  intros SF zero WS Hexp Hc HX.
  assert (Hexp' : forall x, Sign.not_negative (libm_exp x))
    by (intros x; apply not_negative_ltb, Hexp).
  assert (Hc' : Sign.positive (c0 hp)) by (apply positive_ltb, Hc).
  change (Eb (_update_beta hp X s))
    with (mzip fdiv (g (_update_beta hp X s)) (h (_update_beta hp X s))).
  rewrite update_beta_g, update_beta_h.
  apply (forall_ent (fun x => SpecFloat.SFltb x zero = false)
           (shape_mzip fdiv (shape_g' WS) (shape_h' WS))).
  intros v k Hv Hk.
  rewrite (ent_mzip fdiv (shape_g' WS) (shape_h' WS)) by auto.
  rewrite (ent_g' WS), (ent_h' WS) by auto.
  apply not_negative_ltb, unsigned_not_negative. apply SFdiv_unsigned.
  - apply (@beta_g_at_unsigned libm_exp libm_log hp V D X s Hexp' v k Hc').
    intros d Hd. apply leb_not_negative.
    apply (@ent_forall libm_exp libm_log V D
             (fun x => SpecFloat.SFleb zero x = true) X v d
             (ws_X WS) HX Hv Hd).
  - apply (@beta_h_at_unsigned libm_exp libm_log hp D s Hexp' k Hc').
Qed.

Lemma update_beta_Eb_never_negative_witness :
  well_shaped Sample.hpf 1 1 Sample.Xf Sample.sf /\
  (forall x, SpecFloat.SFltb (SpecFloat.SFabs x) Sample.zero = false) /\
  SpecFloat.SFltb Sample.zero (c0 Sample.hpf) = true /\
  Forall (Forall (fun x => SpecFloat.SFleb Sample.zero x = true))
         Sample.Xf /\
  Forall (Forall (fun x => SpecFloat.SFltb x Sample.zero = false))
         (Eb (_update_beta (SF := B64.scalar SpecFloat.SFabs Sample.libm_id)
                           (SP := Sample.b64_special)
                           Sample.hpf Sample.Xf Sample.sf)).
Proof.
  assert (WS : well_shaped Sample.hpf 1 1 Sample.Xf Sample.sf) by shapes.
  assert (Hexp : forall x,
             SpecFloat.SFltb (SpecFloat.SFabs x) Sample.zero = false)
    by (intros [b|b| |b m e]; reflexivity).
  assert (Hc : SpecFloat.SFltb Sample.zero (c0 Sample.hpf) = true)
    by reflexivity.
  assert (HX : Forall (Forall (fun x =>
                 SpecFloat.SFleb Sample.zero x = true)) Sample.Xf)
    by (repeat constructor).
  split; [exact WS|]. split; [exact Hexp|]. split; [exact Hc|].
  split; [exact HX|].
  exact (@update_beta_Eb_never_negative SpecFloat.SFabs Sample.libm_id
           Sample.b64_special Sample.hpf 1 1 Sample.Xf Sample.sf
           WS Hexp Hc HX).
Defined.

(** X14.  [_update_beta] in binary64 arithmetic, whatever the C library
    computes, with [c0 > 0] and well-shaped arrays: in a row [v] of [X]
    whose entries are all zero, every entry of the new [g] is the prior
    term [c0 / V] as the code rounds it, or a NaN. *)
Theorem update_beta_without_counts
  (libm_exp libm_log : SpecFloat.spec_float -> SpecFloat.spec_float)
  (SP : Special SpecFloat.spec_float)
  (hp : hyper SpecFloat.spec_float) (V D : nat)
  (X : list (list SpecFloat.spec_float)) (s : params SpecFloat.spec_float)
  (v : nat) :
  let SF := B64.scalar libm_exp libm_log in
  let zero := SpecFloat.S754_zero false in
  well_shaped hp V D X s ->
  SpecFloat.SFltb zero (c0 hp) = true ->
  v < V ->
  (forall d, d < D -> SpecFloat.SFeqb (ent X v d) zero = true) ->
  forall k, k < K hp ->
  ent (g (_update_beta hp X s)) v k = fdiv (c0 hp) (of_nat V)
  \/ ent (g (_update_beta hp X s)) v k = SpecFloat.S754_nan.
Proof.
  intros SF zero WS Hc Hv HX k Hk.
  rewrite update_beta_g, (ent_g' WS) by auto.
  apply (@beta_g_at_no_data libm_exp libm_log hp V D X s v k).
  - intros d Hd. apply eqb_zero, HX, Hd.
  - intros E.
    pose proof (@prior_unsigned libm_exp libm_log hp V
                  (proj2 (positive_ltb (c0 hp)) Hc)) as U.
    rewrite E in U. discriminate U.
Qed.

Lemma update_beta_without_counts_witness :
  well_shaped Edge.hp_least 2 1 Edge.X_empty Edge.s_empty /\
  SpecFloat.SFltb Sample.zero (c0 Edge.hp_least) = true /\
  (forall d, d < 1 ->
   SpecFloat.SFeqb (ent (SF := Sample.b64) Edge.X_empty 0 d) Sample.zero = true) /\
  (ent (SF := Sample.b64)
       (g (_update_beta (SF := Sample.b64) (SP := Sample.b64_special)
                        Edge.hp_least Edge.X_empty Edge.s_empty)) 0 0
   = fdiv (Scalar := Sample.b64) (c0 Edge.hp_least)
          (of_nat (Scalar := Sample.b64) 2)
   \/ ent (SF := Sample.b64)
          (g (_update_beta (SF := Sample.b64) (SP := Sample.b64_special)
                           Edge.hp_least Edge.X_empty Edge.s_empty)) 0 0
      = SpecFloat.S754_nan).
Proof.
  assert (WS : well_shaped Edge.hp_least 2 1 Edge.X_empty Edge.s_empty) by shapes.
  assert (HX : forall d, d < 1 ->
            SpecFloat.SFeqb (ent (SF := Sample.b64) Edge.X_empty 0 d) Sample.zero
            = true).
  { intros d Hd. assert (E : d = 0) by lia. subst d. reflexivity. }
  split; [exact WS|]. split; [reflexivity|]. split; [exact HX|].
  exact (@update_beta_without_counts Sample.libm_id Sample.libm_id
           Sample.b64_special Edge.hp_least 2 1 Edge.X_empty Edge.s_empty 0 WS eq_refl
           (Nat.lt_0_succ 1) HX 0 (Nat.lt_0_succ 0)).
Defined.
